(** * Packed fixed-length nucleotide sequences: [Seq<size_, T>]

    A shallow embedding of [src/assembler/src/include/sequence/seq.hpp].

    - [size_t] quantities (lengths, indices, shift counts) are [nat]; every
      one of them is bounded by the compile-time sizes, so none wraps.
    - A storage cell of the unsigned word type [T] is a [Z] in
      [0, 2^TBits); a value stored into a [T] is reduced modulo [2^TBits]
      ([toT]).  A [char] is a [Z] as well: the code uses characters both as
      letters ('A' = 65) and as 2-bit codes (0..3).
    - [data_] is a [list Z]; reading outside of it yields a fixed value
      and writing outside of it changes nothing (in C++ both are
      undefined), and the theorems only use indices inside the array.
    - A constructor that assigns [data_] cell by cell takes the content
      [mem] that the storage of the new object happens to hold.
    - A [for] loop is a fold of its body over the indices it visits. *)

From Stdlib Require Import ZArith Lia Ascii String.
From stdpp Require Import base list numbers.

Local Open Scope Z_scope.

(** ** Loops *)

(** [for (i = a; i < a + n; ++i) body] *)
Definition for_range {S : Type} (a n : nat) (body : nat -> S -> S) (s : S) : S :=
  fold_left (fun st i => body i st) (seq a n) s.

(** [for (i = 0; i < n; ++i) body] *)
Definition for_up {S : Type} (n : nat) (body : nat -> S -> S) (s : S) : S :=
  for_range 0 n body s.

(** [for (i = n - 1; i >= 0; --i) body] *)
Definition for_down {S : Type} (n : nat) (body : nat -> S -> S) (s : S) : S :=
  fold_left (fun st i => body i st) (rev (seq 0 n)) s.

(** ** Results of code that can hit [VERIFY] or leave its input buffer *)

Inductive outcome (A : Type) : Type :=
| Done (a : A)          (* ran to completion *)
| AssertionFailed       (* a [VERIFY] did not hold: the process is aborted *)
| OutOfBounds.          (* a read outside of the buffer handed in *)
Arguments Done {A} a.
Arguments AssertionFailed {A}.
Arguments OutOfBounds {A}.

#[global] Instance outcome_ret : MRet outcome := fun A a => Done a.

#[global] Instance outcome_bind : MBind outcome := fun A B k o =>
  match o with
  | Done a => k a
  | AssertionFailed => AssertionFailed
  | OutOfBounds => OutOfBounds
  end.

(** Modelled from the spec: the macro [VERIFY] of [verify.hpp], which is
    not among the sources.  The fatal assertion that terminates the
    process when its condition does not hold. *)
Definition VERIFY (b : bool) : outcome unit :=
  if b then Done tt else AssertionFailed.

(** [for (i = 0; i < n; ++i) body], the body of which may stop the run *)
Definition for_upM {S : Type} (n : nat) (body : nat -> S -> outcome S) (s : S)
  : outcome S :=
  fold_left (fun acc i => st ← acc; body i st) (seq 0 n) (Done s).

(** ** Characters and the symbol codec *)

Definition char_of (a : ascii) : Z := Z.of_N (N_of_ascii a).

(** The bytes of a C string literal: its characters and the terminator. *)
Definition c_str (s : string) : list Z :=
  map char_of (list_ascii_of_string s) ++ [0].

Definition chA : Z := char_of "A".
Definition chC : Z := char_of "C".
Definition chG : Z := char_of "G".
Definition chT : Z := char_of "T".

(** Modelled from the spec: [dignucl] of [sequence/nucl.hpp], which is not
    among the sources.  The spec fixes the code of each letter (A=0, C=1,
    G=2, T=3); on any other character the value is left open there, and
    is 0 here. *)
Definition dignucl (c : Z) : Z :=
  if c =? chC then 1 else if c =? chG then 2 else if c =? chT then 3 else 0.

(** Modelled from the spec: [nucl] of [sequence/nucl.hpp], which is not
    among the sources.  The letter of each 2-bit code, the inverse of
    [dignucl] on the four letters. *)
Definition nucl (c : Z) : Z :=
  if c =? 1 then chC else if c =? 2 then chG else if c =? 3 then chT else chA.

(** Modelled from the spec: [is_nucl] of [sequence/nucl.hpp], which is not
    among the sources.  The is-valid-symbol predicate for the alphabet
    {A,C,G,T}. *)
Definition is_nucl (c : Z) : bool :=
  (c =? chA) || (c =? chC) || (c =? chG) || (c =? chT).

(** Modelled from the spec: [is_dignucl] of [sequence/nucl.hpp], which is
    not among the sources.  Acceptance of a raw 2-bit code 0..3. *)
Definition is_dignucl (c : Z) : bool := (0 <=? c) && (c <? 4).

(** Modelled from the spec: [complement] of [sequence/nucl.hpp], which is
    not among the sources.  The complement map A<->T, C<->G on codes:
    0<->3, 1<->2. *)
Definition complement (c : Z) : Z := 3 - c.

(** ** Streams

    The part of [std::istream] and [std::ostream] that [BinRead] and
    [BinWrite] use: unformatted [read] and [write] and the [fail()] test. *)

Record istream : Type := mkIstream {
  in_bytes : list Z;    (* the bytes the stream can still deliver *)
  in_eof : bool;        (* eofbit *)
  in_fail : bool        (* failbit or badbit: what [fail()] reports *)
}.

Record ostream : Type := mkOstream {
  out_bytes : list Z;   (* the bytes accepted so far *)
  out_room : nat;       (* how many more bytes the sink accepts *)
  out_fail : bool       (* failbit or badbit: what [fail()] reports *)
}.

(** [file.read(buf, n)]: nothing is read from a stream that is not good;
    a stream that ends before [n] bytes delivers what it has and sets
    eofbit and failbit. *)
Definition istream_read (file : istream) (n : nat) : list Z * istream :=
  if in_eof file || in_fail file then
    ([], mkIstream (in_bytes file) (in_eof file) true)
  else if (n <=? length (in_bytes file))%nat then
    (take n (in_bytes file), mkIstream (drop n (in_bytes file)) false false)
  else
    (in_bytes file, mkIstream [] true true).

(** [file.write(buf, n)]: nothing is written to a stream that has failed;
    a sink that refuses bytes sets badbit. *)
Definition ostream_write (file : ostream) (bs : list Z) : ostream :=
  if out_fail file then file
  else if (length bs <=? out_room file)%nat then
    mkOstream (out_bytes file ++ bs) (out_room file - length bs) false
  else
    mkOstream (out_bytes file ++ take (out_room file) bs) 0 true.

(** ** Byte layout of a storage cell (little-endian host) *)

Fixpoint bytes_of_cell (n : nat) (x : Z) : list Z :=
  match n with
  | O => []
  | S n' => Z.land x 255 :: bytes_of_cell n' (Z.shiftr x 8)
  end.

Fixpoint cell_of_bytes (bs : list Z) : Z :=
  match bs with
  | [] => 0
  | b :: bs' => Z.lor b (Z.shiftl (cell_of_bytes bs') 8)
  end.

(** The [sz]-byte cells held by a byte buffer, in order. *)
Fixpoint cells_of_bytes (sz n : nat) (bs : list Z) : list Z :=
  match n with
  | O => []
  | S n' => cell_of_bytes (take sz bs) :: cells_of_bytes sz n' (drop sz bs)
  end.

(** [memcmp(a, b, n)]: the sign of the first difference among [n] bytes. *)
Fixpoint memcmp (a b : list Z) (n : nat) {struct n} : Z :=
  match n with
  | O => 0
  | S n' =>
      match a, b with
      | x :: a', y :: b' =>
          if x =? y then memcmp a' b' n' else if x <? y then -1 else 1
      | _, _ => 0
      end
  end.

(** ** Two-bit groups *)

(** The [j]-th 2-bit group of a cell. *)
Definition grp (x : Z) (j : nat) : Z := Z.land (Z.shiftr x (2 * Z.of_nat j)) 3.

(** ** The class [Seq<size_, T>] *)

(** The object: its only data member. *)
Record Seq : Type := mkSeq { data_ : list Z }.

(** [size_t] arithmetic of the hash functions, on a 64-bit host. *)
Definition size_t (z : Z) : Z := z mod 2 ^ 64.

(** [buf[pos]] on a character buffer of known extent. *)
Definition read (s : list Z) (pos : nat) : outcome Z :=
  match s !! pos with
  | Some c => Done c
  | None => OutOfBounds
  end.

(** The length of the C string in a buffer: the position of its first
    0 character. *)
Fixpoint strlen (s : list Z) : option nat :=
  match s with
  | [] => None
  | c :: s' => if c =? 0 then Some O else S <$> strlen s'
  end.

(** The locals [data], [cnt], [cur] of the packing loops, and [data_]. *)
Record pack_state : Type := mkPack {
  pk_data : Z; pk_cnt : nat; pk_cur : nat; pk_arr : list Z
}.

Section SeqClass.

Context (size_ : nat) (sizeofT : nat).

Definition TBits : nat := Nat.shiftl sizeofT 3.
Definition TNucl : nat := Nat.shiftr TBits 1.
(** Modelled from the spec: [log_<TNucl, 2>::value] of [log.hpp], which is
    not among the sources.  Symbol [i] lives in cell
    [i / symbols-per-word], which the code computes as [i >> TNuclBits]:
    the base-2 logarithm of [TNucl]. *)
Definition TNuclBits : nat := Nat.log2 TNucl.
Definition DataSize : nat := Nat.shiftr (size_ + TNucl - 1) TNuclBits.
Definition PrimeNum : Z := 239.
Definition NuclsRemain : nat := Nat.land size_ (TNucl - 1).

(** Conversion to [T], and what a store into a [T] keeps. *)
Definition toT (z : Z) : Z := z mod 2 ^ Z.of_nat TBits.

Definition MaskForLastBucket : Z :=
  toT (Z.shiftl (toT 1) (Z.of_nat (Nat.shiftl NuclsRemain 1))) - 1.

(** The body shared by the two packing loops ([init] and the constructor
    from an indexable source), for the code [c] of the current symbol:
    [data = data | ((T) c << cnt); cnt += 2;
     if (cnt == TBits) { data_[cur++] = data; cnt = 0; data = 0; }] *)
Definition pack_step (c : Z) (st : pack_state) : pack_state :=
  let data := toT (Z.lor (pk_data st) (Z.shiftl (toT c) (Z.of_nat (pk_cnt st)))) in
  let cnt := (pk_cnt st + 2)%nat in
  if (cnt =? TBits)%nat then
    mkPack 0 0 (S (pk_cur st)) (<[pk_cur st := data]> (pk_arr st))
  else mkPack data cnt (pk_cur st) (pk_arr st).

(** [if (cnt != 0) data_[cur++] = data;] *)
Definition pack_flush (st : pack_state) : pack_state :=
  if (pk_cnt st =? 0)%nat then st
  else mkPack (pk_data st) (pk_cnt st) (S (pk_cur st))
         (<[pk_cur st := pk_data st]> (pk_arr st)).

(** [init(const char* s)], on an object whose storage holds [mem]. *)
Definition init (s : list Z) (mem : list Z) : outcome Seq :=
  st ← for_upM size_
         (fun pos st => c ← read s pos; mret (pack_step (dignucl c) st))
         (mkPack 0 0 0 mem);
  let st := pack_flush st in
  c ← read s size_;
  _ ← VERIFY (c =? 0);
  mret (mkSeq (pk_arr st)).

(** [Seq()] *)
Definition Seq_default : Seq := mkSeq (replicate DataSize (toT 0)).

(** [Seq(const char* s)] *)
Definition Seq_of_cstr (s : list Z) (mem : list Z) : outcome Seq := init s mem.

(** [SetZero()] *)
Definition SetZero (q : Seq) : Seq := mkSeq (replicate DataSize (toT (-1))).

(** [GetZero()] *)
Definition GetZero : Seq := SetZero Seq_default.

(** [Seq(T* data_array)], on an object whose storage holds [mem]: the
    constructor initialises no member before its body runs. *)
Definition Seq_of_array (data_array : list Z) (mem : list Z) : Seq :=
  let d := for_up (DataSize - 1) (fun i d => <[i := data_array !!! i]> d) mem in
  mkSeq (if (NuclsRemain =? 0)%nat then d
         else <[(DataSize - 1)%nat :=
                  toT (Z.land (data_array !!! (DataSize - 1)%nat) MaskForLastBucket)]> d).

(** [Seq(const S &s, size_t offset, size_t number_to_read)] for a source
    [s] with [operator[]], on an object whose storage holds [mem]. *)
Definition Seq_of_source (s : nat -> Z) (offset number_to_read : nat)
    (mem : list Z) : outcome Seq :=
  _ ← VERIFY (is_dignucl (s O) || is_nucl (s O));
  let digit_str := is_dignucl (s O) in
  let st := for_up number_to_read
              (fun i st =>
                 let c := if digit_str then s (offset + i)%nat
                          else dignucl (s (offset + i)%nat) in
                 pack_step c st)
              (mkPack 0 0 0 mem) in
  let st := pack_flush st in
  mret (mkSeq (for_range (pk_cur st) (DataSize - pk_cur st)
                 (fun cur d => <[cur := toT 0]> d) (pk_arr st))).

(** [operator[](i)] *)
Definition op_index (q : Seq) (i : nat) : Z :=
  Z.land (Z.shiftr (data_ q !!! Nat.shiftr i TNuclBits)
                   (Z.of_nat (Nat.shiftl (Nat.land i (TNucl - 1)) 1))) 3.

(** [set(i, c)]; [~] is taken in [Z], which agrees with the complement in
    [T] on everything that meets a cell of [data_]. *)
Definition set (q : Seq) (i : nat) (c : Z) : Seq :=
  let k := Nat.shiftr i TNuclBits in
  let sh := Z.of_nat (Nat.shiftl (Nat.land i (TNucl - 1)) 1) in
  mkSeq (<[k := toT (Z.lor (Z.land (data_ q !!! k) (Z.lnot (Z.shiftl (toT 3) sh)))
                           (Z.shiftl (toT c) sh))]> (data_ q)).

(** [operator!()] *)
Definition op_not (q : Seq) : Seq :=
  let res :=
    for_up (Nat.shiftr size_ 1)
      (fun i res =>
         let front := toT (complement (op_index res i)) in
         let end_ := toT (complement (op_index res (size_ - 1 - i))) in
         let res := set res i end_ in
         set res (size_ - 1 - i) front)
      q in
  if (Nat.land size_ 1 =? 1)%nat then
    set res (Nat.shiftr size_ 1) (complement (op_index res (Nat.shiftr size_ 1)))
  else res.

(** [operator<<(c)] *)
Definition op_shl (q : Seq) (c : Z) : Seq :=
  let c := if is_nucl c then dignucl c else c in
  let data := data_ q in
  if (DataSize =? 0)%nat then mkSeq data
  else
    let last := (DataSize - 1)%nat in
    let rm := toT (Z.land (data !!! last) 3) in
    let lastnuclshift_ :=
      toT (Z.of_nat (Nat.shiftl (Nat.land (size_ + TNucl - 1) (TNucl - 1)) 1)) in
    let data :=
      <[last := toT (Z.lor (Z.shiftr (data !!! last) 2)
                           (Z.shiftl (toT c) lastnuclshift_))]> data in
    if (2 <=? DataSize)%nat then
      mkSeq (fst (for_down (DataSize - 1)
                    (fun i st =>
                       let data := fst st in
                       let rm := snd st in
                       let new_rm := toT (Z.land (data !!! i) 3) in
                       (<[i := toT (Z.lor (Z.shiftr (data !!! i) 2)
                                          (Z.shiftl rm (Z.of_nat (TBits - 2))))]> data,
                        new_rm))
                    (data, rm)))
    else mkSeq data.

(** [operator>>(c)] *)
Definition op_shr (q : Seq) (c : Z) : outcome Seq :=
  let c := if is_nucl c then dignucl c else c in
  _ ← VERIFY (is_dignucl c);
  let data :=
    fst (for_up DataSize
           (fun i st =>
              let data := fst st in
              let rm := snd st in
              let new_rm :=
                toT (Z.land (Z.shiftr (data !!! i) (Z.of_nat (TBits - 2))) 3) in
              (<[i := toT (Z.lor (Z.shiftl (data !!! i) 2) rm)]> data, new_rm))
           (data_ q, toT c)) in
  mret (mkSeq
    (if (Nat.land size_ (TNucl - 1) =? 0)%nat then data
     else
       let lastnuclshift_ :=
         toT (Z.of_nat (Nat.shiftl (Nat.land size_ (TNucl - 1)) 1)) in
       <[(DataSize - 1)%nat :=
           toT (Z.land (data !!! (DataSize - 1)%nat)
                       (toT (Z.shiftl (toT 1) lastnuclshift_) - 1))]> data)).

(** The bytes of the storage array, [data_.data()] seen as [char*]. *)
Definition bytes_of (q : Seq) : list Z :=
  concat (map (bytes_of_cell sizeofT) (data_ q)).

(** [operator==(s)] *)
Definition op_eq (q s : Seq) : bool :=
  0 =? memcmp (bytes_of q) (bytes_of s) (sizeofT * DataSize).

(** [operator!=(s)] *)
Definition op_ne (q s : Seq) : bool :=
  negb (0 =? memcmp (bytes_of q) (bytes_of s) (sizeofT * DataSize)).

(** [str()] *)
Definition str (q : Seq) : list Z :=
  for_up size_ (fun i res => <[i := nucl (op_index q i)]> res)
    (replicate size_ (char_of "-")).

(** [GetHash()] *)
Definition GetHash (q : Seq) : Z :=
  for_up DataSize
    (fun i hash => size_t (size_t (size_t (Z.shiftl hash 5) - hash) + data_ q !!! i))
    PrimeNum.

(** [hash::operator()(seq)] *)
Definition hash (seq : Seq) : Z :=
  for_up DataSize
    (fun i hash => size_t (size_t (size_t (Z.shiftl hash 5) - hash) + data_ seq !!! i))
    PrimeNum.

(** [equal_to::operator()(l, r)] *)
Definition equal_to (l r : Seq) : bool :=
  memcmp (bytes_of l) (bytes_of r) (sizeofT * DataSize) =? 0.

(** [BinRead(file, seq)]: the bytes delivered overwrite the front of the
    storage of [*seq]; the result is [!file.fail()].  The parameter is
    declared [Seq<size_> *], the class over the default [T]. *)
Definition BinRead (file : istream) (seq : Seq) : bool * istream * Seq :=
  let '(bs, file') := istream_read file (sizeofT * DataSize) in
  (negb (in_fail file'), file',
   mkSeq (cells_of_bytes sizeofT DataSize (bs ++ drop (length bs) (bytes_of seq)))).

(** [BinWrite(file, seq)]: hands [sizeof(T) * DataSize] bytes of the
    storage to the stream; the result is [!file.fail()]. *)
Definition BinWrite (file : ostream) (seq : Seq) : bool * ostream :=
  let file' := ostream_write file (take (sizeofT * DataSize) (bytes_of seq)) in
  (negb (out_fail file'), file').

(** ** Specification vocabulary *)

(** A value of the class: [DataSize] cells, each a value of [T]. *)
Definition valid (q : Seq) : bool :=
  (length (data_ q) =? DataSize)%nat
  && forallb (fun x => (0 <=? x) && (x <? 2 ^ Z.of_nat TBits)) (data_ q).

(** The padding invariant: every 2-bit group of the storage at a position
    from [size_] on is 0. *)
Definition padded (q : Seq) : bool :=
  forallb (fun i => op_index q i =? 0)
    (seq size_ (DataSize * TNucl - size_)).

(** The sequences built by a constructor other than [GetZero], from input
    that meets the constructor's documented assumptions, and by the
    operators on such sequences. *)
Inductive constructed : Seq -> Prop :=
| by_default : constructed Seq_default
| by_cstr s mem q :
    length mem = DataSize ->
    strlen s = Some size_ ->
    Forall (fun c => Is_true (is_nucl c)) (take size_ s) ->
    Seq_of_cstr s mem = Done q ->
    constructed q
| by_source s offset number_to_read mem q :
    length mem = DataSize ->
    (number_to_read <= size_)%nat ->
    (is_dignucl (s O) ->
     forall i, (i < number_to_read)%nat -> is_dignucl (s (offset + i)%nat)) ->
    (~ is_dignucl (s O) ->
     forall i, (i < number_to_read)%nat -> is_nucl (s (offset + i)%nat)) ->
    Seq_of_source s offset number_to_read mem = Done q ->
    constructed q
| by_array data_array mem :
    valid (mkSeq mem) ->
    Forall (fun x => 0 <= x < 2 ^ Z.of_nat TBits) data_array ->
    constructed (Seq_of_array data_array mem)
| by_shl q c :
    constructed q -> is_dignucl c || is_nucl c ->
    constructed (op_shl q c)
| by_shr q c r :
    constructed q -> op_shr q c = Done r ->
    constructed r
| by_not q :
    constructed q ->
    constructed (op_not q).

End SeqClass.

(** ** The rest of the class *)

(** [for (i = 0; i < n; ++i) body], the body of which may [return]: the
    value returned in the first round that returns. *)
Fixpoint for_return {R : Type} (idxs : list nat) (body : nat -> option R)
  : option R :=
  match idxs with
  | [] => None
  | i :: rest =>
      match body i with
      | Some r => Some r
      | None => for_return rest body
      end
  end.

(** Horner evaluation of the cells with multiplier [m] from [seed], in
    unbounded arithmetic. *)
Definition horner (m seed : Z) (d : list Z) : Z :=
  fold_left (fun h x => h * m + x) d seed.

Section SeqClassRest.

Context (size_ : nat) (sizeofT : nat).

(** [first()] *)
Definition first (q : Seq) : Z := op_index sizeofT q O.

(** [last()] *)
Definition last (q : Seq) : Z := op_index sizeofT q (size_ - 1).

(** [pushBack(c)]: the result is a [Seq<size_ + 1, T>]; [copy] assigns
    the [DataSize] cells of this object to the front of its storage. *)
Definition pushBack (q : Seq) (c : Z) : Seq :=
  let c := if is_nucl c then dignucl c else c in
  let s := Seq_default (size_ + 1) sizeofT in
  let d := for_up (DataSize size_ sizeofT)
             (fun i d => <[i := data_ q !!! i]> d) (data_ s) in
  let k := (DataSize (size_ + 1) sizeofT - 1)%nat in
  mkSeq (<[k := toT sizeofT
                  (Z.lor (d !!! k)
                     (Z.shiftl (toT sizeofT c)
                        (Z.of_nat (Nat.shiftl (Nat.land size_ (TNucl sizeofT - 1)) 1))))]> d).

(** [pushFront(c)]: the [Seq<size_ + 1, T>] built from the [std::string]
    [nucl(c) + str()], which selects the constructor from an indexable
    source, on an object whose storage holds [mem]. *)
Definition pushFront (q : Seq) (c : Z) (mem : list Z) : outcome Seq :=
  let c := if is_nucl c then dignucl c else c in
  _ ← VERIFY (is_dignucl c);
  let s := nucl c :: str size_ sizeofT q in
  Seq_of_source (size_ + 1) sizeofT (fun i => s !!! i) O (size_ + 1) mem.

(** [start<size2_, T2>()]: a [Seq<size2_, T2>] from this object, by the copy
    constructor when [Seq<size2_, T2>] is the class itself (a word type
    is told by its size here) and the constructor from an indexable
    source, reading this object through [operator[]], otherwise. *)
Definition start (size2_ sizeofT2 : nat) (q : Seq) (mem : list Z) : outcome Seq :=
  _ ← VERIFY (size2_ <=? size_)%nat;
  if ((size2_ =? size_) && (sizeofT2 =? sizeofT))%nat then mret q
  else Seq_of_source size2_ sizeofT2 (fun i => op_index sizeofT q i) O size2_ mem.

(** [end<size2_, T2>()]: a [Seq<size2_, T2>] from this object as an
    indexable source, with the offset [size_ - size2_]. *)
Definition end_ (size2_ sizeofT2 : nat) (q : Seq) (mem : list Z) : outcome Seq :=
  _ ← VERIFY (size2_ <=? size_)%nat;
  Seq_of_source size2_ sizeofT2 (fun i => op_index sizeofT q i)
    (size_ - size2_) size2_ mem.

(** [multiple_hash::operator()(seq, hash_num, h)], without its log line.
    [hash_num] counts from 0; a shift by 64 or more is undefined in C++
    and is the shift of [Z] here. *)
Definition multiple_hash (seq : Seq) (hash_num : nat) (h : Z) : Z :=
  let hash_num := S hash_num in
  for_up (DataSize size_ sizeofT)
    (fun i h => size_t (size_t (Z.shiftl h (Z.of_nat hash_num)) + data_ seq !!! i))
    h.

(** [less2::operator()(l, r)] *)
Definition less2 (l r : Seq) : bool :=
  match for_return (seq 0 size_)
          (fun i => if op_index sizeofT l i =? op_index sizeofT r i then None
                    else Some (op_index sizeofT l i <? op_index sizeofT r i))
  with
  | Some b => b
  | None => false
  end.

(** The symbols of a sequence, in order. *)
Definition symbols (q : Seq) : list Z := map (op_index sizeofT q) (seq 0 size_).

End SeqClassRest.

(** ** [VectorStream<T>] of [simple_tools.hpp] *)

Module VectorStream.
Section Stream.

Context {T : Type}.

Record t : Type := mk { data_ : list T; pos_ : nat; closed_ : bool }.

(** [VectorStream(data)] *)
Definition make (data : list T) : t := mk data O false.

(** [eof()] *)
Definition eof (s : t) : bool := (pos_ s =? length (data_ s))%nat.

(** [operator>>(t)]: [t = data_[pos_++]], with no test of [pos_]. *)
Definition extract (s : t) : outcome (T * t) :=
  match data_ s !! pos_ s with
  | Some x => Done (x, mk (data_ s) (S (pos_ s)) (closed_ s))
  | None => OutOfBounds
  end.

(** [close()] *)
Definition close (s : t) : t := mk (data_ s) (pos_ s) true.

(** [is_open()] *)
Definition is_open (s : t) : bool := negb (closed_ s).

(** [reset()] *)
Definition reset (s : t) : t := mk (data_ s) O (closed_ s).

(** [n] extractions in a row, [s >> t1 >> ... >> tn]. *)
Fixpoint extract_n (n : nat) (s : t) : outcome (list T * t) :=
  match n with
  | O => Done ([], s)
  | S n' =>
      r ← extract s;
      rest ← extract_n n' r.2;
      mret (r.1 :: rest.1, rest.2)
  end.

End Stream.
End VectorStream.

(** * Theory *)

Ltac goal_decide :=
  match goal with
  | |- context [@decide ?P ?d] => destruct (@decide P d)
  end.

(** ** Two-bit groups of a cell *)

Lemma testbit_3 k : 0 <= k -> Z.testbit 3 k = (k <? 2).
Proof.
  intros Hk. destruct (Z.ltb_spec k 2) as [H|H].
  - assert (k = 0 \/ k = 1) as [-> | ->] by lia; reflexivity.
  - apply Z.bits_above_log2; [lia|]. change (Z.log2 3) with 1. lia.
Qed.

Lemma testbit_below p x k : 0 <= x < 2 ^ p -> p <= k -> Z.testbit x k = false.
Proof.
  intros [H0 Hx] Hk. destruct (Z.eq_dec x 0) as [-> | Hne].
  - apply Z.bits_0.
  - apply Z.bits_above_log2; [lia|].
    assert (Z.log2 x < p); [|lia]. apply Z.log2_lt_pow2; lia.
Qed.

Lemma grp_testbit x j k :
  0 <= k -> Z.testbit (grp x j) k = Z.testbit x (k + 2 * Z.of_nat j) && (k <? 2).
Proof.
  intros Hk. unfold grp.
  rewrite Z.land_spec, Z.shiftr_spec, testbit_3 by lia. reflexivity.
Qed.

Lemma grp_bits a j b j' :
  (forall k, 0 <= k < 2 ->
     Z.testbit a (k + 2 * Z.of_nat j) = Z.testbit b (k + 2 * Z.of_nat j')) ->
  grp a j = grp b j'.
Proof.
  intros H. apply Z.bits_inj'. intros k Hk. rewrite !grp_testbit by lia.
  destruct (Z.ltb_spec k 2); [rewrite H by lia; reflexivity|].
  rewrite !andb_false_r. reflexivity.
Qed.

Lemma grp_range x j : 0 <= grp x j < 4.
Proof.
  unfold grp. change 3 with (Z.ones 2). rewrite Z.land_ones by lia.
  change (2 ^ 2) with 4. apply Z.mod_pos_bound. lia.
Qed.

Lemma grp_code c : 0 <= c < 4 -> grp c 0 = c.
Proof.
  intros Hc. unfold grp. change (2 * Z.of_nat 0) with 0.
  rewrite Z.shiftr_0_r. change 3 with (Z.ones 2).
  rewrite Z.land_ones by lia. apply Z.mod_small. change (2 ^ 2) with 4. lia.
Qed.

Lemma grp_0 j : grp 0 j = 0.
Proof. unfold grp. rewrite Z.shiftr_0_l. reflexivity. Qed.

Lemma grp_shiftr2 x j : grp (Z.shiftr x 2) j = grp x (S j).
Proof.
  apply grp_bits. intros k Hk. rewrite Z.shiftr_spec by lia. f_equal. lia.
Qed.

Lemma grp_lor a b j : grp (Z.lor a b) j = Z.lor (grp a j) (grp b j).
Proof. unfold grp. rewrite Z.shiftr_lor, Z.land_lor_distr_l. reflexivity. Qed.

Lemma grp_shiftl_code c r j :
  0 <= c < 4 ->
  grp (Z.shiftl c (2 * Z.of_nat r)) j = if decide (j = r) then c else 0.
Proof.
  intros Hc. case_decide as Hj.
  - subst j. rewrite <- (grp_code c) at 2 by lia. apply grp_bits.
    intros k Hk. rewrite Z.shiftl_spec by lia. f_equal. lia.
  - rewrite <- (grp_0 0). apply grp_bits. intros k Hk.
    rewrite Z.shiftl_spec, Z.bits_0 by lia.
    destruct (Z.ltb_spec (k + 2 * Z.of_nat j - 2 * Z.of_nat r) 0).
    + apply Z.testbit_neg_r. lia.
    + apply (testbit_below 2); [change (2^2) with 4|]; lia.
Qed.

Lemma grp_high n x j :
  0 <= x < 2 ^ (2 * Z.of_nat n) -> (n <= j)%nat -> grp x j = 0.
Proof.
  intros Hx Hj. rewrite <- (grp_0 0). apply grp_bits. intros k Hk.
  rewrite Z.bits_0. apply (testbit_below (2 * Z.of_nat n)); lia.
Qed.

Lemma grp_mod n x j :
  (j < n)%nat -> grp (x mod 2 ^ (2 * Z.of_nat n)) j = grp x j.
Proof.
  intros Hj. apply grp_bits. intros k Hk.
  apply Z.mod_pow2_bits_low. lia.
Qed.

Lemma grp_land_ones x r j :
  grp (Z.land x (Z.ones (2 * Z.of_nat r))) j = if decide (j < r)%nat then grp x j else 0.
Proof.
  case_decide as Hj.
  - apply grp_bits. intros k Hk.
    rewrite Z.land_spec, Z.ones_spec_low by lia. apply andb_true_r.
  - rewrite <- (grp_0 0). apply grp_bits. intros k Hk.
    rewrite Z.land_spec, Z.ones_spec_high, Z.bits_0 by lia. apply andb_false_r.
Qed.

Lemma grp_shiftl2 x j :
  grp (Z.shiftl x 2) j = if decide (j = O) then 0 else grp x (j - 1).
Proof.
  case_decide as Hj.
  - subst j. rewrite <- (grp_0 0). apply grp_bits. intros k Hk.
    rewrite Z.shiftl_spec, Z.bits_0 by lia. apply Z.testbit_neg_r. lia.
  - apply grp_bits. intros k Hk. rewrite Z.shiftl_spec by lia. f_equal. lia.
Qed.

Lemma grp_clear x r j :
  grp (Z.land x (Z.lnot (Z.shiftl 3 (2 * Z.of_nat r)))) j
  = if decide (j = r) then 0 else grp x j.
Proof.
  case_decide as Hj.
  - subst j. rewrite <- (grp_0 0). apply grp_bits. intros k Hk.
    rewrite Z.land_spec, Z.lnot_spec, Z.shiftl_spec, Z.bits_0 by lia.
    replace (k + 2 * Z.of_nat r - 2 * Z.of_nat r) with k by lia.
    rewrite testbit_3 by lia. destruct (Z.ltb_spec k 2); [|lia].
    apply andb_false_r.
  - apply grp_bits. intros k Hk.
    rewrite Z.land_spec, Z.lnot_spec, Z.shiftl_spec by lia.
    destruct (Z.ltb_spec (k + 2 * Z.of_nat j - 2 * Z.of_nat r) 0).
    + rewrite (Z.testbit_neg_r 3) by lia. apply andb_true_r.
    + rewrite testbit_3 by lia.
      destruct (Z.ltb_spec (k + 2 * Z.of_nat j - 2 * Z.of_nat r) 2); [lia|].
      apply andb_true_r.
Qed.

Lemma cell_ext n x y :
  0 <= x < 2 ^ (2 * Z.of_nat n) -> 0 <= y < 2 ^ (2 * Z.of_nat n) ->
  (forall j, (j < n)%nat -> grp x j = grp y j) -> x = y.
Proof.
  intros Hx Hy H. apply Z.bits_inj'. intros i Hi.
  destruct (Z.ltb_spec i (2 * Z.of_nat n)) as [Hlt|Hge].
  - pose proof (H (Z.to_nat (i / 2))) as Hj.
    assert (Hdm : i = 2 * (i / 2) + i mod 2) by (apply Z.div_mod; lia).
    assert (Hm : 0 <= i mod 2 < 2) by (apply Z.mod_pos_bound; lia).
    assert (Hd : 0 <= i / 2 < Z.of_nat n)
      by (split; [apply Z.div_pos; lia | apply Z.div_lt_upper_bound; lia]).
    apply (f_equal (fun z => Z.testbit z (i mod 2))) in Hj; [|lia].
    rewrite !grp_testbit in Hj by lia.
    replace (i mod 2 + 2 * Z.of_nat (Z.to_nat (i / 2))) with i in Hj by lia.
    destruct (Z.ltb_spec (i mod 2) 2); [|lia].
    rewrite !andb_true_r in Hj. exact Hj.
  - rewrite (testbit_below (2 * Z.of_nat n) x), (testbit_below (2 * Z.of_nat n) y) by lia.
    reflexivity.
Qed.

(** ** Loop rules *)

Lemma for_range_S {S : Type} a n (body : nat -> S -> S) s :
  for_range a (Datatypes.S n) body s = body (a + n)%nat (for_range a n body s).
Proof.
  unfold for_range. rewrite seq_S, fold_left_app. reflexivity.
Qed.

Lemma for_range_ind {S : Type} (P : nat -> S -> Prop) a n body s :
  P a s ->
  (forall i st, (a <= i < a + n)%nat -> P i st -> P (Datatypes.S i) (body i st)) ->
  P (a + n)%nat (for_range a n body s).
Proof.
  intros H0 Hstep. induction n as [|n IH].
  - rewrite Nat.add_0_r. exact H0.
  - rewrite for_range_S, Nat.add_succ_r. apply Hstep; [lia|].
    apply IH. intros i st Hi. apply Hstep. lia.
Qed.

Lemma for_up_ind {S : Type} (P : nat -> S -> Prop) n body s :
  P O s ->
  (forall i st, (i < n)%nat -> P i st -> P (Datatypes.S i) (body i st)) ->
  P n (for_up n body s).
Proof.
  intros H0 Hstep. apply (for_range_ind P 0 n); [exact H0|].
  intros i st Hi. apply Hstep. lia.
Qed.

Lemma for_down_S {S : Type} n (body : nat -> S -> S) s :
  for_down (Datatypes.S n) body s = for_down n body (body n s).
Proof.
  unfold for_down. rewrite seq_S, rev_app_distr. reflexivity.
Qed.

(** [P k st]: [st] is the state when the iterations [i >= k] are done. *)
Lemma for_down_ind {S : Type} (P : nat -> S -> Prop) n body s :
  P n s ->
  (forall i st, (i < n)%nat -> P (Datatypes.S i) st -> P i (body i st)) ->
  P O (for_down n body s).
Proof.
  revert s. induction n as [|n IH]; intros s H0 Hstep.
  - exact H0.
  - rewrite for_down_S. apply IH.
    + apply Hstep; [lia | exact H0].
    + intros i st Hi. apply Hstep. lia.
Qed.

Section SeqTheory.

Context (size_ sizeofT : nat).
Hypothesis TNucl_pow2 : TNucl sizeofT = (2 ^ TNuclBits sizeofT)%nat.

Local Abbreviation W := (TNucl sizeofT).
Local Abbreviation DS := (DataSize size_ sizeofT).
Local Notation "q @ i" := (op_index sizeofT q i) (at level 20).

Lemma TBits_TNucl : TBits sizeofT = (2 * W)%nat.
Proof.
  unfold TNucl, TBits. rewrite Nat.shiftr_div_pow2, Nat.shiftl_mul_pow2.
  change (2 ^ 3)%nat with (4 * 2)%nat. change (2 ^ 1)%nat with 2%nat.
  rewrite Nat.mul_assoc, Nat.div_mul by lia. lia.
Qed.

Lemma TNucl_pos : (0 < W)%nat.
Proof.
  rewrite TNucl_pow2. apply Nat.neq_0_lt_0, Nat.pow_nonzero. lia.
Qed.

Lemma TNucl_ge4 : (4 <= W)%nat.
Proof.
  pose proof TNucl_pos as H. revert H. unfold TNucl, TBits.
  rewrite Nat.shiftr_div_pow2, Nat.shiftl_mul_pow2.
  change (2 ^ 3)%nat with (4 * 2)%nat. change (2 ^ 1)%nat with 2%nat.
  rewrite Nat.mul_assoc, Nat.div_mul by lia. lia.
Qed.

Lemma cell_index i : Nat.shiftr i (TNuclBits sizeofT) = (i / W)%nat.
Proof. rewrite Nat.shiftr_div_pow2, <- TNucl_pow2. reflexivity. Qed.

Lemma cell_offset i : Nat.land i (W - 1) = (i mod W)%nat.
Proof.
  rewrite TNucl_pow2 at 1.
  replace (2 ^ TNuclBits sizeofT - 1)%nat with (Nat.ones (TNuclBits sizeofT))
    by (rewrite Nat.ones_equiv; lia).
  rewrite Nat.land_ones, <- TNucl_pow2. reflexivity.
Qed.

Lemma shift_amount j : Z.of_nat (Nat.shiftl j 1) = 2 * Z.of_nat j.
Proof. rewrite Nat.shiftl_mul_pow2. change (2 ^ 1)%nat with 2%nat. lia. Qed.

Lemma DataSize_div : DS = ((size_ + W - 1) / W)%nat.
Proof. unfold DataSize. apply cell_index. Qed.

(** Positions as (cell, offset) pairs. *)
Lemma pos_div k j : (j < W)%nat -> ((k * W + j) / W = k)%nat.
Proof.
  intros Hj. rewrite Nat.add_comm, Nat.div_add by lia.
  rewrite Nat.div_small by lia. reflexivity.
Qed.

Lemma pos_mod k j : (j < W)%nat -> ((k * W + j) mod W = j)%nat.
Proof.
  intros Hj. rewrite Nat.add_comm, Nat.Div0.mod_add. apply Nat.mod_small. lia.
Qed.

Lemma pos_split i : exists k j, (i = k * W + j /\ j < W)%nat.
Proof.
  exists (i / W)%nat, (i mod W)%nat. split.
  - rewrite Nat.mul_comm. apply Nat.div_mod_eq.
  - apply Nat.mod_upper_bound. pose proof TNucl_pos. lia.
Qed.

Lemma op_index_grp q k j :
  (j < W)%nat -> q @ (k * W + j) = grp (data_ q !!! k) j.
Proof.
  intros Hj. unfold op_index, grp.
  rewrite cell_index, cell_offset, shift_amount, pos_div, pos_mod by lia.
  reflexivity.
Qed.

Lemma toT_mod z : toT sizeofT z = z mod 2 ^ (2 * Z.of_nat W).
Proof. unfold toT. rewrite TBits_TNucl. do 2 f_equal. lia. Qed.

Lemma toT_range z : 0 <= toT sizeofT z < 2 ^ (2 * Z.of_nat W).
Proof. rewrite toT_mod. apply Z.mod_pos_bound. apply Z.pow_pos_nonneg; lia. Qed.

Lemma pow_W_ge : 2 ^ 8 <= 2 ^ (2 * Z.of_nat W).
Proof. pose proof TNucl_ge4. apply Z.pow_le_mono_r; lia. Qed.

Lemma toT_small z : 0 <= z < 256 -> toT sizeofT z = z.
Proof.
  intros Hz. rewrite toT_mod. apply Z.mod_small.
  pose proof pow_W_ge. change (2 ^ 8) with 256 in *. lia.
Qed.

Lemma grp_toT z j : (j < W)%nat -> grp (toT sizeofT z) j = grp z j.
Proof. intros Hj. rewrite toT_mod. apply grp_mod. exact Hj. Qed.

Lemma valid_length q : valid size_ sizeofT q -> length (data_ q) = DS.
Proof.
  unfold valid. intros H. apply andb_prop_elim in H as [H _].
  apply Is_true_eq_true in H. apply Nat.eqb_eq in H. exact H.
Qed.

Lemma valid_cell q k :
  valid size_ sizeofT q -> 0 <= data_ q !!! k < 2 ^ (2 * Z.of_nat W).
Proof.
  unfold valid. intros H. apply andb_prop_elim in H as [_ H].
  apply Is_true_eq_true in H. rewrite forallb_forall in H.
  destruct (data_ q !! k) as [x|] eqn:Hk.
  - rewrite (list_lookup_total_correct _ _ _ Hk).
    apply list_elem_of_lookup_2, list_elem_of_In, H in Hk.
    rewrite TBits_TNucl in Hk. 
    replace (Z.of_nat (2 * W)) with (2 * Z.of_nat W) in Hk by lia. lia.
  - rewrite list_lookup_total_alt, Hk. simpl.
    pose proof pow_W_ge. change (2 ^ 8) with 256 in *. lia.
Qed.

Lemma valid_intro d :
  length d = DS -> (forall k, 0 <= d !!! k < 2 ^ (2 * Z.of_nat W)) ->
  valid size_ sizeofT (mkSeq d).
Proof.
  intros Hl Hc. unfold valid. simpl. apply andb_prop_intro. split.
  - apply Is_true_eq_left, Nat.eqb_eq, Hl.
  - apply Is_true_eq_left, forallb_forall. intros x Hx.
    apply list_elem_of_In, list_elem_of_lookup in Hx as [k Hk].
    specialize (Hc k). rewrite (list_lookup_total_correct _ _ _ Hk) in Hc.
    rewrite TBits_TNucl.
    replace (Z.of_nat (2 * W)) with (2 * Z.of_nat W) by lia. lia.
Qed.

Lemma padded_spec q :
  padded size_ sizeofT q <->
  forall i, (size_ <= i < DS * W)%nat -> q @ i = 0.
Proof.
  unfold padded. rewrite Is_true_true, forallb_forall. split.
  - intros H i Hi. apply Z.eqb_eq, H, in_seq. lia.
  - intros H i Hi. apply in_seq in Hi. apply Z.eqb_eq, H. lia.
Qed.

(** Two storage arrays with the same 2-bit groups are the same. *)
Lemma data_ext q1 q2 :
  valid size_ sizeofT q1 -> valid size_ sizeofT q2 ->
  (forall i, (i < DS * W)%nat -> q1 @ i = q2 @ i) ->
  data_ q1 = data_ q2.
Proof.
  intros H1 H2 H. apply (list_eq_same_length _ _ DS); try (apply valid_length; assumption).
  intros k x y Hk Hx Hy.
  rewrite <- (list_lookup_total_correct _ _ _ Hx), <- (list_lookup_total_correct _ _ _ Hy).
  apply (cell_ext W); try (apply valid_cell; assumption).
  intros j Hj. rewrite <- !op_index_grp by lia. apply H. nia.
Qed.

Lemma cell_lt k j : (k * W + j < DS * W)%nat -> (k < DS)%nat.
Proof. intros H. nia. Qed.

Lemma op_index_range q i : 0 <= q @ i < 4.
Proof. unfold op_index. apply (grp_range _ 0). Qed.

Lemma op_index_set q i c j :
  valid size_ sizeofT q -> (i < DS * W)%nat -> 0 <= c < 4 ->
  set sizeofT q i c @ j = if decide (j = i) then c else q @ j.
Proof.
  intros Hv Hi Hc.
  destruct (pos_split i) as (k & r & -> & Hr).
  destruct (pos_split j) as (k' & r' & -> & Hr').
  rewrite !op_index_grp by lia.
  unfold set. cbn [data_].
  rewrite cell_index, cell_offset,
    shift_amount, pos_div, pos_mod by lia.
  rewrite (toT_small 3), (toT_small c) by lia.
  destruct (decide (k' = k)) as [->|Hk].
  - rewrite list_lookup_total_insert_eq
      by (rewrite valid_length by assumption; apply (cell_lt k r); lia).
    rewrite grp_toT, grp_lor, grp_clear, grp_shiftl_code by lia.
    destruct (decide (r' = r)) as [->|Hne].
    + rewrite decide_True by reflexivity. reflexivity.
    + rewrite decide_False by lia. apply Z.lor_0_r.
  - rewrite list_lookup_total_insert_ne by lia.
    rewrite decide_False; [reflexivity|]. intros Heq. apply Hk.
    apply (f_equal (fun n => (n / W)%nat)) in Heq.
    rewrite !pos_div in Heq by lia. exact Heq.
Qed.

Lemma valid_set q i c :
  valid size_ sizeofT q -> valid size_ sizeofT (set sizeofT q i c).
Proof.
  intros Hv. unfold set. apply valid_intro.
  - rewrite length_insert. apply valid_length, Hv.
  - intros k. rewrite list_lookup_total_insert.
    case_decide; [apply toT_range|apply valid_cell, Hv].
Qed.

(** *** The extent of the storage array *)

Lemma size_le_cells : (size_ <= DS * W)%nat.
Proof.
  rewrite DataSize_div. pose proof TNucl_pos as HW.
  pose proof (Nat.div_mod_eq (size_ + W - 1) W) as Hdm.
  pose proof (Nat.mod_upper_bound (size_ + W - 1) W) as Hm. nia.
Qed.

Lemma cells_lt_size : (DS * W < size_ + W)%nat.
Proof.
  rewrite DataSize_div. pose proof TNucl_pos as HW.
  pose proof (Nat.div_mod_eq (size_ + W - 1) W) as Hdm. nia.
Qed.

(** *** Reverse complement *)

Lemma land_1 n : Nat.land n 1 = (n mod 2)%nat.
Proof. change (Nat.land n (Nat.ones 1) = (n mod 2 ^ 1)%nat). apply Nat.land_ones. Qed.

Lemma complement_range c : 0 <= c < 4 -> 0 <= complement c < 4.
Proof. unfold complement. lia. Qed.

Lemma complement_involutive c : complement (complement c) = c.
Proof. unfold complement. lia. Qed.

(** The state of the loop of [operator!] when it ends. *)
Lemma op_not_loop q :
  valid size_ sizeofT q ->
  let res :=
    for_up (size_ / 2)
      (fun i res =>
         let front := toT sizeofT (complement (res @ i)) in
         let end_ := toT sizeofT (complement (res @ (size_ - 1 - i))) in
         let res := set sizeofT res i end_ in
         set sizeofT res (size_ - 1 - i) front) q in
  valid size_ sizeofT res /\
  forall j, (j < DS * W)%nat ->
    res @ j = if decide (j < size_ / 2 \/ size_ - size_ / 2 <= j < size_)%nat
              then complement (q @ (size_ - 1 - j)) else q @ j.
Proof.
  intros Hv. pose proof size_le_cells as Hle.
  assert (Hhalf : (2 * (size_ / 2) <= size_)%nat).
  { pose proof (Nat.div_mod_eq size_ 2). lia. }
  pose (P := fun (i : nat) (res : Seq) =>
    valid size_ sizeofT res /\
    forall j, (j < DS * W)%nat ->
      res @ j = if decide (j < i \/ size_ - i <= j < size_)%nat
                then complement (q @ (size_ - 1 - j)) else q @ j).
  apply (for_up_ind P); subst P; cbv beta.
  - split; [exact Hv|]. intros j Hj. rewrite decide_False by lia. reflexivity.
  - intros i res Hi [Hres Hsym]. cbv zeta.
    pose proof (complement_range _ (op_index_range res i)) as Hf.
    pose proof (complement_range _ (op_index_range res (size_ - 1 - i))) as He.
    rewrite !toT_small by lia.
    split; [apply valid_set, valid_set, Hres|].
    intros j Hj.
    rewrite op_index_set; [|apply valid_set, Hres|lia|lia].
    rewrite op_index_set; [|exact Hres|lia|lia].
    rewrite (Hsym i), (Hsym (size_ - 1 - i)%nat), (Hsym j) by lia.
    rewrite (decide_False (P := (i < i \/ _)%nat)) by lia.
    rewrite (decide_False (P := (size_ - 1 - i < i \/ _)%nat)) by lia.
    destruct (decide (j = size_ - 1 - i)%nat) as [->|Hj1].
    + rewrite decide_True by lia. f_equal. f_equal. lia.
    + destruct (decide (j = i)) as [->|Hj2].
      * rewrite decide_True by lia. reflexivity.
      * destruct (decide (j < i \/ size_ - i <= j < size_)%nat).
        -- rewrite decide_True by lia. reflexivity.
        -- rewrite decide_False by lia. reflexivity.
Qed.

Lemma op_not_spec q :
  valid size_ sizeofT q ->
  valid size_ sizeofT (op_not size_ sizeofT q) /\
  forall j, (j < DS * W)%nat ->
    op_not size_ sizeofT q @ j =
      if decide (j < size_)%nat then complement (q @ (size_ - 1 - j)) else q @ j.
Proof.
  intros Hv. pose proof size_le_cells as Hle.
  pose proof (Nat.div_mod_eq size_ 2) as Hdm.
  pose proof (Nat.mod_upper_bound size_ 2) as Hm.
  destruct (op_not_loop q Hv) as [Hres Hsym].
  unfold op_not.
  rewrite Nat.shiftr_div_pow2, land_1. change (2 ^ 1)%nat with 2%nat.
  set (res := for_up _ _ q) in *.
  destruct (Nat.eqb_spec (size_ mod 2) 1) as [Hodd|Heven].
  - split; [apply valid_set, Hres|]. intros j Hj.
    rewrite op_index_set;
      [|exact Hres|lia|apply complement_range, op_index_range].
    rewrite (Hsym (size_ / 2)%nat), (Hsym j) by lia.
    rewrite (decide_False (P := (size_ / 2 < size_ / 2 \/ _)%nat)) by lia.
    destruct (decide (j = size_ / 2)%nat) as [->|Hj1].
    + rewrite decide_True by lia. f_equal. f_equal. lia.
    + destruct (decide (j < size_)%nat).
      * rewrite decide_True by lia. reflexivity.
      * rewrite decide_False by lia. reflexivity.
  - split; [exact Hres|]. intros j Hj. rewrite (Hsym j) by lia.
    destruct (decide (j < size_)%nat).
    + rewrite decide_True by lia. reflexivity.
    + rewrite decide_False by lia. reflexivity.
Qed.

Lemma op_not_involutive_data q :
  valid size_ sizeofT q ->
  data_ (op_not size_ sizeofT (op_not size_ sizeofT q)) = data_ q.
Proof.
  intros Hv. destruct (op_not_spec q Hv) as [Hv1 H1].
  destruct (op_not_spec _ Hv1) as [Hv2 H2].
  pose proof size_le_cells as Hle.
  apply data_ext; [exact Hv2|exact Hv|]. intros j Hj.
  rewrite H2 by lia. destruct (decide (j < size_)%nat).
  - rewrite H1 by lia. rewrite decide_True by lia.
    rewrite complement_involutive. f_equal. lia.
  - rewrite H1 by lia. rewrite decide_False by lia. reflexivity.
Qed.

(** *** Bytes of the storage array *)

Lemma length_bytes_of_cell n x : length (bytes_of_cell n x) = n.
Proof. revert x. induction n as [|n IH]; intros x; simpl; [|rewrite IH]; reflexivity. Qed.

Lemma cell_of_bytes_of_cell n x :
  cell_of_bytes (bytes_of_cell n x) = x mod 2 ^ (8 * Z.of_nat n).
Proof.
  revert x. induction n as [|n IH]; intros x.
  - simpl. rewrite Z.mod_1_r. reflexivity.
  - cbn [bytes_of_cell cell_of_bytes]. rewrite IH.
    change 255 with (Z.ones 8). rewrite Z.land_ones by lia.
    apply Z.bits_inj'. intros k Hk.
    rewrite Z.lor_spec, Z.shiftl_spec, !Z.testbit_mod_pow2 by lia.
    destruct (Z.ltb_spec k 8) as [H8|H8].
    + rewrite (Z.testbit_neg_r _ (k - 8)) by lia.
      destruct (Z.ltb_spec k (8 * Z.of_nat (S n))); [|lia].
      rewrite andb_false_r, orb_false_r. reflexivity.
    + rewrite Z.shiftr_spec by lia.
      replace (k - 8 + 8) with k by lia.
      destruct (Z.ltb_spec (k - 8) (8 * Z.of_nat n));
        destruct (Z.ltb_spec k (8 * Z.of_nat (S n))); try lia; reflexivity.
Qed.

Lemma length_bytes_of q : length (bytes_of sizeofT q) = (sizeofT * length (data_ q))%nat.
Proof.
  unfold bytes_of. induction (data_ q) as [|x d IH]; simpl.
  - lia.
  - rewrite length_app, length_bytes_of_cell, IH. lia.
Qed.

Lemma TBits_bytes : Z.of_nat (TBits sizeofT) = 8 * Z.of_nat sizeofT.
Proof. unfold TBits. rewrite Nat.shiftl_mul_pow2. change (2 ^ 3)%nat with 8%nat. lia. Qed.

Lemma cells_of_bytes_concat d rest :
  (forall x, In x d -> 0 <= x < 2 ^ (8 * Z.of_nat sizeofT)) ->
  cells_of_bytes sizeofT (length d)
    (concat (map (bytes_of_cell sizeofT) d) ++ rest) = d.
Proof.
  induction d as [|x d IH]; intros Hd; [reflexivity|].
  cbn [length map concat cells_of_bytes]. rewrite <- app_assoc.
  rewrite take_app_length', drop_app_length' by (rewrite length_bytes_of_cell; reflexivity).
  rewrite cell_of_bytes_of_cell, Z.mod_small by (apply Hd; left; reflexivity).
  rewrite IH; [reflexivity|]. intros y Hy. apply Hd. right. exact Hy.
Qed.

Lemma valid_In q x :
  valid size_ sizeofT q -> In x (data_ q) -> 0 <= x < 2 ^ (8 * Z.of_nat sizeofT).
Proof.
  intros Hv Hx. apply list_elem_of_In, list_elem_of_lookup in Hx as [k Hk].
  rewrite <- (list_lookup_total_correct _ _ _ Hk), <- TBits_bytes, TBits_TNucl.
  replace (Z.of_nat (2 * W)) with (2 * Z.of_nat W) by lia.
  apply valid_cell, Hv.
Qed.

Lemma cells_of_bytes_of q rest :
  valid size_ sizeofT q ->
  cells_of_bytes sizeofT DS (bytes_of sizeofT q ++ rest) = data_ q.
Proof.
  intros Hv. rewrite <- (valid_length q Hv). apply cells_of_bytes_concat.
  intros x. apply valid_In, Hv.
Qed.

Lemma memcmp_0 n a b :
  (n <= length a)%nat -> (n <= length b)%nat ->
  memcmp a b n = 0 <-> take n a = take n b.
Proof.
  revert a b. induction n as [|n IH]; intros a b Ha Hb.
  - split; intros _; reflexivity.
  - destruct a as [|x a]; [simpl in Ha; lia|].
    destruct b as [|y b]; [simpl in Hb; lia|].
    simpl in Ha, Hb. cbn [memcmp take]. (* firstn *)
    destruct (Z.eqb_spec x y) as [->|Hne].
    + rewrite IH by lia. split; [intros ->; reflexivity|]. intros H. injection H. tauto.
    + split.
      * destruct (x <? y); discriminate.
      * intros H. injection H. intros _ Hxy. contradiction.
Qed.

Lemma memcmp_bytes_of q s :
  valid size_ sizeofT q -> valid size_ sizeofT s ->
  memcmp (bytes_of sizeofT q) (bytes_of sizeofT s) (sizeofT * DS) = 0
  <-> data_ q = data_ s.
Proof.
  intros Hq Hs.
  assert (Hlq : length (bytes_of sizeofT q) = (sizeofT * DS)%nat)
    by (rewrite length_bytes_of, (valid_length q Hq); reflexivity).
  assert (Hls : length (bytes_of sizeofT s) = (sizeofT * DS)%nat)
    by (rewrite length_bytes_of, (valid_length s Hs); reflexivity).
  rewrite memcmp_0 by lia.
  rewrite <- Hlq at 1. rewrite firstn_all.
  rewrite <- Hls. rewrite firstn_all. split.
  - intros H. rewrite <- (cells_of_bytes_of q [] Hq), <- (cells_of_bytes_of s [] Hs), H.
    reflexivity.
  - unfold bytes_of. intros ->. reflexivity.
Qed.

Lemma op_eq_data q s :
  valid size_ sizeofT q -> valid size_ sizeofT s ->
  op_eq size_ sizeofT q s = true <-> data_ q = data_ s.
Proof.
  intros Hq Hs. unfold op_eq. rewrite Z.eqb_eq, <- (memcmp_bytes_of q s Hq Hs).
  split; intros H; symmetry; exact H.
Qed.

(** *** Shift left *)

Lemma is_nucl_code c : 0 <= c < 4 -> is_nucl c = false.
Proof.
  intros Hc. unfold is_nucl.
  change chA with 65. change chC with 67. change chG with 71. change chT with 84.
  repeat (rewrite (proj2 (Z.eqb_neq c _)) by lia). reflexivity.
Qed.

Lemma toT_shift n : (n < 2 * W)%nat -> toT sizeofT (Z.of_nat n) = Z.of_nat n.
Proof.
  intros Hn. rewrite toT_mod. apply Z.mod_small.
  pose proof (Z.pow_gt_lin_r 2 (2 * Z.of_nat W)). lia.
Qed.

Lemma toT_low2 x : toT sizeofT (Z.land x 3) = grp x 0.
Proof.
  unfold grp. change (2 * Z.of_nat 0) with 0. rewrite Z.shiftr_0_r.
  apply toT_small. pose proof (grp_range x 0) as H. unfold grp in H.
  change (2 * Z.of_nat 0) with 0 in H. rewrite Z.shiftr_0_r in H. lia.
Qed.

Lemma last_position :
  (0 < size_)%nat ->
  (size_ - 1 = (DS - 1) * W + (size_ - 1) mod W /\ 0 < DS)%nat.
Proof.
  intros Hpos. pose proof TNucl_pos as HW.
  assert (HDS : DS = S ((size_ - 1) / W)).
  { rewrite DataSize_div. replace (size_ + W - 1)%nat with (1 * W + (size_ - 1))%nat by lia.
    rewrite Nat.div_add_l by lia. lia. }
  rewrite HDS. split; [|lia].
  replace (S ((size_ - 1) / W) - 1)%nat with ((size_ - 1) / W)%nat by lia.
  rewrite Nat.mul_comm. apply Nat.div_mod_eq.
Qed.

Lemma last_offset :
  (0 < size_)%nat -> Nat.land (size_ + W - 1) (W - 1) = ((size_ - 1) mod W)%nat.
Proof.
  intros Hpos. pose proof TNucl_pos as HW. rewrite cell_offset.
  replace (size_ + W - 1)%nat with ((size_ - 1) + 1 * W)%nat by lia.
  apply Nat.Div0.mod_add.
Qed.

(** The carry loop of [operator<<], cell by cell. *)
Lemma op_shl_loop d rm n :
  (n < length d)%nat ->
  let body := fun (i : nat) (st : list Z * Z) =>
    let data := fst st in
    let rm := snd st in
    let new_rm := toT sizeofT (Z.land (data !!! i) 3) in
    (<[i := toT sizeofT (Z.lor (Z.shiftr (data !!! i) 2)
                               (Z.shiftl rm (Z.of_nat (TBits sizeofT - 2))))]> data,
     new_rm) in
  let d' := fst (for_down n body (d, rm)) in
  length d' = length d /\
  forall k, d' !!! k =
    if decide (k < n)%nat then
      toT sizeofT (Z.lor (Z.shiftr (d !!! k) 2)
        (Z.shiftl (if decide (S k = n) then rm else toT sizeofT (Z.land (d !!! S k) 3))
                  (Z.of_nat (TBits sizeofT - 2))))
    else d !!! k.
Proof.
  intros Hn body.
  pose (P := fun (i : nat) (st : list Z * Z) =>
    length (fst st) = length d /\
    snd st = (if decide (i = n) then rm else toT sizeofT (Z.land (d !!! i) 3)) /\
    forall k, fst st !!! k =
      if decide (i <= k < n)%nat then
        toT sizeofT (Z.lor (Z.shiftr (d !!! k) 2)
          (Z.shiftl (if decide (S k = n) then rm else toT sizeofT (Z.land (d !!! S k) 3))
                    (Z.of_nat (TBits sizeofT - 2))))
      else d !!! k).
  assert (HP : P O (for_down n body (d, rm))).
  { apply (for_down_ind P); subst P; cbv beta.
    - cbn [fst snd]. rewrite decide_True by reflexivity.
      split; [reflexivity|]. split; [reflexivity|].
      intros k. rewrite decide_False by lia. reflexivity.
    - intros i [data rm0] Hi (Hlen & Hrm & Hcells). cbn [fst snd] in *.
      unfold body. cbn [fst snd]. rewrite length_insert.
      split; [exact Hlen|]. split.
      + rewrite decide_False by lia. rewrite (Hcells i), decide_False by lia.
        reflexivity.
      + intros k. rewrite list_lookup_total_insert by lia.
        rewrite (Hcells i), Hrm, (Hcells k).
        repeat case_decide; destruct_and?; subst; try lia; reflexivity. }
  destruct HP as (Hlen & _ & Hcells). split; [exact Hlen|].
  intros k. rewrite (Hcells k). repeat case_decide; (reflexivity || lia).
Qed.

Lemma TBits_minus_2 : Z.of_nat (TBits sizeofT - 2) = 2 * Z.of_nat (W - 1).
Proof. rewrite TBits_TNucl. pose proof TNucl_pos. lia. Qed.

(** What [operator<<] leaves in every 2-bit group of the storage. *)
Lemma op_shl_spec q c :
  valid size_ sizeofT q -> (0 < size_)%nat -> 0 <= c < 4 ->
  valid size_ sizeofT (op_shl size_ sizeofT q c) /\
  forall k j, (k < DS)%nat -> (j < W)%nat ->
    op_shl size_ sizeofT q c @ (k * W + j) =
      Z.lor (if decide (S j < W)%nat then q @ (k * W + S j)
             else if decide (S k < DS)%nat then q @ (S k * W + 0) else 0)
            (if decide (k * W + j = size_ - 1)%nat then c else 0).
Proof.
  intros Hv Hpos Hc. destruct (last_position Hpos) as [Hlast HDS].
  pose proof (Nat.mod_upper_bound (size_ - 1) W) as Hr.
  pose proof TNucl_pos as HW. specialize (Hr ltac:(lia)).
  pose proof (valid_length q Hv) as Hlen.
  unfold op_shl. rewrite (is_nucl_code c Hc), (toT_small c) by lia.
  rewrite (proj2 (Nat.eqb_neq DS 0)) by lia.
  rewrite (last_offset Hpos), toT_shift, shift_amount, toT_low2
    by (rewrite Nat.shiftl_mul_pow2; change (2 ^ 1)%nat with 2%nat; lia).
  set (r := ((size_ - 1) mod W)%nat) in *.
  set (d := data_ q) in *.
  set (d1 := <[(DS - 1)%nat := _]> d).
  match goal with
  | |- context [for_down ?n ?b ?s] => set (body := b)
  end.
  set (loop := for_down _ body _).
  assert (Hd : (if (2 <=? DS)%nat then mkSeq (fst loop) else mkSeq d1) = mkSeq (fst loop)).
  { destruct (Nat.leb_spec 2 DS) as [|H1]; [reflexivity|].
    subst loop. replace (DS - 1)%nat with O by lia. reflexivity. }
  rewrite Hd. clear Hd.
  assert (Hloop : length (fst loop) = length d1 /\
    forall k, fst loop !!! k =
      if decide (k < DS - 1)%nat then
        toT sizeofT (Z.lor (Z.shiftr (d1 !!! k) 2)
          (Z.shiftl (if decide (S k = DS - 1)%nat then grp (d !!! (DS - 1)%nat) 0
                     else toT sizeofT (Z.land (d1 !!! S k) 3))
                    (Z.of_nat (TBits sizeofT - 2))))
      else d1 !!! k).
  { apply (op_shl_loop d1 (grp (d !!! (DS - 1)%nat) 0) (DS - 1)).
    subst d1. rewrite length_insert. lia. }
  destruct Hloop as [Hl' Hcells].
  assert (Hd1 : forall k, d1 !!! k =
    if decide (k = DS - 1)%nat
    then toT sizeofT (Z.lor (Z.shiftr (d !!! k) 2) (Z.shiftl c (2 * Z.of_nat r)))
    else d !!! k).
  { intros k. subst d1. rewrite list_lookup_total_insert by lia.
    repeat case_decide; destruct_and?; subst; try lia; reflexivity. }
  split.
  - apply valid_intro; cbn [data_].
    + rewrite Hl'. subst d1. rewrite length_insert. exact Hlen.
    + intros k. rewrite Hcells. case_decide; [apply toT_range|].
      rewrite Hd1. case_decide; [apply toT_range|apply valid_cell, Hv].
  - intros k j Hk Hj. rewrite (op_index_grp _ k j) by lia. cbn [data_].
    rewrite Hcells. destruct (decide (k < DS - 1)%nat) as [Hk1|Hk1].
    + rewrite (Hd1 k), (decide_False (P := (k = DS - 1)%nat)) by lia.
      assert (Hcarry : (if decide (S k = DS - 1)%nat then grp (d !!! (DS - 1)%nat) 0
                        else toT sizeofT (Z.land (d1 !!! S k) 3))
                       = grp (d !!! S k) 0).
      { case_decide as HS; [rewrite <- HS; reflexivity|].
        rewrite toT_low2, Hd1, decide_False by lia. reflexivity. }
      rewrite Hcarry, TBits_minus_2.
      rewrite grp_toT, grp_lor, grp_shiftr2, grp_shiftl_code by (try apply grp_range; lia).
      rewrite (decide_False (P := (k * W + j = size_ - 1)%nat)) by nia.
      rewrite Z.lor_0_r.
      destruct (decide (S j < W)%nat) as [HSj|HSj].
      * rewrite decide_False by lia. rewrite Z.lor_0_r.
        rewrite op_index_grp by lia. reflexivity.
      * rewrite decide_True by lia. rewrite decide_True by lia.
        rewrite (grp_high W (d !!! k)) by (try apply valid_cell; assumption || lia).
        rewrite op_index_grp by lia. reflexivity.
    + assert (k = DS - 1)%nat as -> by lia.
      rewrite Hd1, decide_True by reflexivity.
      rewrite grp_toT, grp_lor, grp_shiftr2, grp_shiftl_code by lia.
      f_equal.
      * destruct (decide (S j < W)%nat) as [HSj|HSj];
          [rewrite op_index_grp by lia; reflexivity|].
        rewrite decide_False by lia.
        apply (grp_high W); [apply valid_cell, Hv|lia].
      * repeat case_decide; try reflexivity; nia.
Qed.

Lemma op_shl_shifted q c i :
  valid size_ sizeofT q -> 0 <= c < 4 -> (i < size_ - 1)%nat ->
  op_shl size_ sizeofT q c @ i = q @ (S i).
Proof.
  intros Hv Hc Hi. assert (Hpos : (0 < size_)%nat) by lia.
  destruct (op_shl_spec q c Hv Hpos Hc) as [_ Hspec].
  pose proof size_le_cells as Hle.
  destruct (pos_split i) as (k & j & -> & Hj).
  assert (Hk : (k < DS)%nat) by (apply (cell_lt k j); lia).
  rewrite (Hspec k j Hk Hj).
  rewrite (decide_False (P := (k * W + j = size_ - 1)%nat)) by lia.
  rewrite Z.lor_0_r. destruct (decide (S j < W)%nat) as [HSj|HSj].
  - f_equal. lia.
  - rewrite decide_True by nia. f_equal. lia.
Qed.

Lemma op_shl_appended q c :
  valid size_ sizeofT q -> padded size_ sizeofT q -> (0 < size_)%nat ->
  0 <= c < 4 ->
  op_shl size_ sizeofT q c @ (size_ - 1) = c.
Proof.
  intros Hv Hp Hpos Hc. destruct (op_shl_spec q c Hv Hpos Hc) as [_ Hspec].
  destruct (last_position Hpos) as [Hlast HDS].
  pose proof TNucl_pos as HW.
  pose proof (Nat.mod_upper_bound (size_ - 1) W ltac:(lia)) as Hr.
  rewrite padded_spec in Hp. pose proof cells_lt_size as Hlt.
  rewrite Hlast at 1. rewrite Hspec by lia.
  rewrite (decide_True (P := (_ = size_ - 1)%nat)) by lia.
  destruct (decide (S ((size_ - 1) mod W) < W)%nat) as [HS|HS].
  - rewrite Hp by nia. reflexivity.
  - rewrite decide_False by lia. reflexivity.
Qed.

Lemma op_shl_padded q c :
  valid size_ sizeofT q -> padded size_ sizeofT q -> (0 < size_)%nat ->
  0 <= c < 4 ->
  padded size_ sizeofT (op_shl size_ sizeofT q c).
Proof.
  intros Hv Hp Hpos Hc. destruct (op_shl_spec q c Hv Hpos Hc) as [_ Hspec].
  destruct (last_position Hpos) as [Hlast HDS].
  rewrite padded_spec in Hp. apply padded_spec. intros i Hi.
  destruct (pos_split i) as (k & j & -> & Hj).
  assert (Hk : (k < DS)%nat) by (apply (cell_lt k j); lia).
  assert (Hk' : (k = DS - 1)%nat) by nia. 
  rewrite (Hspec k j Hk Hj).
  rewrite (decide_False (P := (k * W + j = size_ - 1)%nat)) by lia.
  rewrite Z.lor_0_r. destruct (decide (S j < W)%nat) as [HSj|HSj].
  - apply Hp. nia.
  - rewrite decide_False by lia. reflexivity.
Qed.

(** *** The last cell and its mask *)

Lemma remain_split :
  (size_ = size_ / W * W + size_ mod W /\ size_ mod W < W)%nat /\
  DS = (if decide (size_ mod W = 0)%nat then size_ / W else S (size_ / W))%nat.
Proof.
  pose proof TNucl_pos as HW.
  pose proof (Nat.div_mod_eq size_ W) as Hdm.
  pose proof (Nat.mod_upper_bound size_ W ltac:(lia)) as Hm.
  split; [lia|]. rewrite DataSize_div. case_decide as H0.
  - replace (size_ + W - 1)%nat with (size_ / W * W + (W - 1))%nat by lia.
    apply pos_div. lia.
  - replace (size_ + W - 1)%nat with (S (size_ / W) * W + (size_ mod W - 1))%nat by lia.
    apply pos_div. lia.
Qed.

Lemma mask_ones n :
  (n < W)%nat ->
  toT sizeofT (Z.shiftl (toT sizeofT 1) (Z.of_nat (Nat.shiftl n 1))) - 1
  = Z.ones (2 * Z.of_nat n).
Proof.
  intros Hn. rewrite (toT_small 1), shift_amount by lia.
  rewrite toT_mod, Z.mod_small; [unfold Z.ones; lia|].
  rewrite Z.shiftl_1_l. split; [apply Z.pow_nonneg; lia|].
  apply Z.pow_lt_mono_r; lia.
Qed.

(** A last cell masked at the boundary pads the sequence. *)
Lemma masked_padded d x :
  (size_ mod W <> 0)%nat ->
  length d = DS ->
  padded size_ sizeofT
    (mkSeq (<[(DS - 1)%nat :=
               toT sizeofT (Z.land x (Z.ones (2 * Z.of_nat (size_ mod W))))]> d)).
Proof.
  intros Hnr Hlen. destruct remain_split as [[Hsz Hm] HDS].
  rewrite decide_False in HDS by exact Hnr.
  apply padded_spec. intros i Hi.
  destruct (pos_split i) as (k & j & -> & Hj).
  assert (Hk : (k = DS - 1)%nat) by nia. subst k.
  rewrite op_index_grp by lia. cbn [data_].
  rewrite list_lookup_total_insert_eq by lia.
  rewrite grp_toT, grp_land_ones by lia.
  apply decide_False. nia.
Qed.

(** Without a remainder no position lies beyond the sequence. *)
Lemma full_padded q : (size_ mod W = 0)%nat -> padded size_ sizeofT q.
Proof.
  intros Hnr. destruct remain_split as [[Hsz Hm] HDS].
  rewrite decide_True in HDS by exact Hnr.
  apply padded_spec. intros i Hi. nia.
Qed.

(** *** Shift right *)

Lemma op_shr_loop d rm n :
  length d = DS -> (forall k, 0 <= d !!! k < 2 ^ (2 * Z.of_nat W)) ->
  let body := fun (i : nat) (st : list Z * Z) =>
    let data := fst st in
    let rm := snd st in
    let new_rm :=
      toT sizeofT (Z.land (Z.shiftr (data !!! i) (Z.of_nat (TBits sizeofT - 2))) 3) in
    (<[i := toT sizeofT (Z.lor (Z.shiftl (data !!! i) 2) rm)]> data, new_rm) in
  let d' := fst (for_up n body (d, rm)) in
  length d' = DS /\ (forall k, 0 <= d' !!! k < 2 ^ (2 * Z.of_nat W)).
Proof.
  intros Hlen Hd body.
  pose (P := fun (i : nat) (st : list Z * Z) =>
    length (fst st) = DS /\ forall k, 0 <= fst st !!! k < 2 ^ (2 * Z.of_nat W)).
  apply (for_up_ind P); subst P; cbv beta.
  - split; assumption.
  - intros i [data rm0] Hi [Hl Hc]. unfold body. cbn [fst snd] in *.
    rewrite length_insert. split; [exact Hl|].
    intros k. rewrite list_lookup_total_insert.
    case_decide; [apply toT_range|apply Hc].
Qed.

Lemma op_shr_ok q c :
  valid size_ sizeofT q -> is_dignucl (if is_nucl c then dignucl c else c) ->
  exists r, op_shr size_ sizeofT q c = Done r /\
    valid size_ sizeofT r /\ padded size_ sizeofT r.
Proof.
  intros Hv Hc. unfold op_shr.
  destruct (is_dignucl _); [|contradiction]. cbn [VERIFY mbind outcome_bind mret outcome_ret].
  eexists. split; [reflexivity|].
  match goal with
  | |- context [for_up ?n ?b ?s] => set (body := b)
  end.
  set (loop := for_up _ body _).
  assert (Hloop : length (fst loop) = DS /\
                  forall k, 0 <= fst loop !!! k < 2 ^ (2 * Z.of_nat W)).
  { apply (op_shr_loop (data_ q) _ DS);
      [apply valid_length, Hv | intros k; apply valid_cell, Hv]. }
  destruct Hloop as [Hl Hcells].
  rewrite cell_offset. destruct remain_split as [[Hsz Hm] _].
  destruct (Nat.eqb_spec (size_ mod W) 0) as [H0|H0].
  - split; [apply valid_intro; assumption|apply full_padded, H0].
  - rewrite toT_shift
      by (rewrite Nat.shiftl_mul_pow2; change (2 ^ 1)%nat with 2%nat; lia).
    rewrite mask_ones by lia. split.
    + apply valid_intro; [rewrite length_insert; exact Hl|].
      intros k. rewrite list_lookup_total_insert.
      case_decide; [apply toT_range|apply Hcells].
    + apply masked_padded; assumption.
Qed.

(** *** The packing loops *)

Lemma valid_intro_lt d :
  length d = DS ->
  (forall k, (k < DS)%nat -> 0 <= d !!! k < 2 ^ (2 * Z.of_nat W)) ->
  valid size_ sizeofT (mkSeq d).
Proof.
  intros Hl Hc. apply valid_intro; [exact Hl|]. intros k.
  destruct (decide (k < DS)%nat) as [Hk|Hk]; [apply Hc, Hk|].
  rewrite list_lookup_total_alt, lookup_ge_None_2 by lia. simpl.
  pose proof pow_W_ge. change (2 ^ 8) with 256 in *. lia.
Qed.

(** The state of a packing loop that has consumed the codes
    [code 0 .. code (pos - 1)]. *)
Lemma pack_loop (code : nat -> Z) mem n :
  length mem = DS -> (n <= size_)%nat ->
  (forall i, (i < n)%nat -> 0 <= code i < 4) ->
  let st := for_up n (fun i st => pack_step sizeofT (code i) st) (mkPack 0 0 0 mem) in
  pk_cur st = (n / W)%nat /\ pk_cnt st = (2 * (n mod W))%nat /\
  length (pk_arr st) = DS /\
  0 <= pk_data st < 2 ^ (2 * Z.of_nat W) /\
  (forall j, (j < W)%nat ->
     grp (pk_data st) j = if decide (j < n mod W)%nat then code (n / W * W + j)%nat else 0) /\
  (forall k j, (k < n / W)%nat -> (j < W)%nat ->
     grp (pk_arr st !!! k) j = code (k * W + j)%nat) /\
  (forall k, (k < n / W)%nat -> 0 <= pk_arr st !!! k < 2 ^ (2 * Z.of_nat W)).
Proof.
  intros Hmem Hn Hcode. pose proof TNucl_pos as HW. pose proof size_le_cells as Hle.
  pose (P := fun (pos : nat) (st : pack_state) =>
    pk_cur st = (pos / W)%nat /\ pk_cnt st = (2 * (pos mod W))%nat /\
    length (pk_arr st) = DS /\
    0 <= pk_data st < 2 ^ (2 * Z.of_nat W) /\
    (forall j, (j < W)%nat ->
       grp (pk_data st) j =
         if decide (j < pos mod W)%nat then code (pos / W * W + j)%nat else 0) /\
    (forall k j, (k < pos / W)%nat -> (j < W)%nat ->
       grp (pk_arr st !!! k) j = code (k * W + j)%nat) /\
    (forall k, (k < pos / W)%nat -> 0 <= pk_arr st !!! k < 2 ^ (2 * Z.of_nat W))).
  apply (for_up_ind P); subst P; cbv beta.
  - cbn [pk_cur pk_cnt pk_arr pk_data].
    rewrite (Nat.Div0.div_0_l W), (Nat.Div0.mod_0_l W).
    split_and!; try (assumption || lia).
    intros j Hj. rewrite decide_False by lia. apply grp_0.
  - intros pos st Hpos (Hcur & Hcnt & Hlen & Hdata & Hgrp & Hcells & Hrange).
    destruct (pos_split pos) as (k0 & j0 & -> & Hj0).
    rewrite (pos_div k0 j0 Hj0) in Hcur, Hgrp, Hcells, Hrange.
    rewrite (pos_mod k0 j0 Hj0) in Hcnt, Hgrp.
    assert (Hk0 : (k0 < DS)%nat) by nia.
    specialize (Hcode _ Hpos).
    unfold pack_step. rewrite Hcur, Hcnt, (toT_small (code _)) by lia.
    replace (Z.of_nat (2 * j0)) with (2 * Z.of_nat j0) by lia.
    assert (Hnew : forall j, (j < W)%nat ->
      grp (toT sizeofT (Z.lor (pk_data st)
             (Z.shiftl (code (k0 * W + j0)%nat) (2 * Z.of_nat j0)))) j
      = if decide (j < S j0)%nat then code (k0 * W + j)%nat else 0).
    { intros j Hj. rewrite grp_toT, grp_lor, grp_shiftl_code, Hgrp by lia.
      repeat case_decide; subst; try lia.
      - apply Z.lor_0_r.
      - apply Z.lor_0_l.
      - reflexivity. }
    rewrite TBits_TNucl. destruct (Nat.eqb_spec (2 * j0 + 2) (2 * W)) as [Hfull|Hpart].
    + assert (HS : S (k0 * W + j0) = (S k0 * W + 0)%nat) by lia.
      rewrite HS, pos_div, pos_mod by lia.
      cbn [pk_cur pk_cnt pk_arr pk_data]. rewrite length_insert.
      split_and!; try (assumption || lia).
      * intros j Hj. rewrite decide_False by lia. apply grp_0.
      * intros k j Hk Hj. rewrite list_lookup_total_insert by lia.
        case_decide as Hkk.
        -- destruct Hkk as [<- _]. rewrite Hnew, decide_True by lia. reflexivity.
        -- apply Hcells; lia.
      * intros k Hk. rewrite list_lookup_total_insert by lia.
        case_decide; [apply toT_range|apply Hrange; lia].
    + assert (HS : S (k0 * W + j0) = (k0 * W + S j0)%nat) by lia.
      rewrite HS, pos_div, pos_mod by lia.
      cbn [pk_cur pk_cnt pk_arr pk_data].
      split_and!; try (assumption || lia); try apply toT_range.
Qed.

Lemma fill_cells a n (v : Z) (d : list Z) :
  let d' := for_range a n (fun cur d => <[cur := v]> d) d in
  length d' = length d /\
  forall k, d' !!! k =
    if decide (a <= k < a + n /\ k < length d)%nat then v else d !!! k.
Proof.
  induction n as [|n [IHl IHc]]; cbv zeta.
  - split; [reflexivity|]. intros k. rewrite decide_False by lia. reflexivity.
  - rewrite for_range_S, length_insert. split; [exact IHl|].
    intros k. rewrite list_lookup_total_insert, IHc, IHl.
    repeat case_decide; destruct_and?; subst; try lia; reflexivity.
Qed.

(** What a packing loop, the flush of its last cell and the zero fill of
    the cells after it leave in the storage. *)
Lemma pack_spec (code : nat -> Z) mem n :
  length mem = DS -> (n <= size_)%nat ->
  (forall i, (i < n)%nat -> 0 <= code i < 4) ->
  let st := pack_flush
    (for_up n (fun i st => pack_step sizeofT (code i) st) (mkPack 0 0 0 mem)) in
  let res := mkSeq (for_range (pk_cur st) (DS - pk_cur st)
                      (fun cur d => <[cur := toT sizeofT 0]> d) (pk_arr st)) in
  pk_cur st = (if decide (n mod W = 0)%nat then n / W else S (n / W))%nat /\
  valid size_ sizeofT res /\
  forall i, (i < DS * W)%nat -> res @ i = if decide (i < n)%nat then code i else 0.
Proof.
  intros Hmem Hn Hcode. pose proof TNucl_pos as HW. pose proof size_le_cells as Hle.
  destruct (pack_loop code mem n Hmem Hn Hcode)
    as (Hcur & Hcnt & Hlen & Hdata & Hgrp & Hcells & Hrange).
  cbv zeta in *. set (st0 := for_up n _ _) in *.
  pose proof (Nat.div_mod_eq n W) as Hdm.
  pose proof (Nat.mod_upper_bound n W ltac:(lia)) as Hmod.
  assert (Hfl : pk_cur (pack_flush st0)
                = (if decide (n mod W = 0)%nat then n / W else S (n / W))%nat /\
    length (pk_arr (pack_flush st0)) = DS /\
    forall k j, (k < pk_cur (pack_flush st0))%nat -> (j < W)%nat ->
      0 <= pk_arr (pack_flush st0) !!! k < 2 ^ (2 * Z.of_nat W) /\
      grp (pk_arr (pack_flush st0) !!! k) j
      = if decide (k * W + j < n)%nat then code (k * W + j)%nat else 0).
  { unfold pack_flush. rewrite Hcnt.
    destruct (Nat.eqb_spec (2 * (n mod W)) 0) as [H0|H0].
    - rewrite decide_True by lia. split_and!; [exact Hcur|exact Hlen|].
      intros k j Hk Hj. rewrite Hcur in Hk. split; [apply Hrange, Hk|].
      rewrite Hcells, decide_True by (lia || nia). reflexivity.
    - rewrite decide_False by lia. cbn [pk_cur pk_arr].
      rewrite length_insert, Hcur. split_and!; [reflexivity|exact Hlen|].
      assert (Hlt : (n / W < DS)%nat) by nia.
      intros k j Hk Hj. rewrite list_lookup_total_insert by lia.
      destruct (decide (n / W = k)%nat) as [<-|Hne].
      + rewrite decide_True by lia. split; [exact Hdata|].
        rewrite Hgrp by lia. repeat case_decide; try reflexivity; nia.
      + rewrite decide_False by lia. split; [apply Hrange; lia|].
        rewrite Hcells, decide_True by (lia || nia). reflexivity. }
  destruct Hfl as (Hfcur & Hflen & Hfcells).
  set (st := pack_flush st0) in *. split; [exact Hfcur|].
  destruct (fill_cells (pk_cur st) (DS - pk_cur st) (toT sizeofT 0) (pk_arr st))
    as [Hl Hc].
  cbv zeta in Hl, Hc. rewrite (toT_small 0) in * by lia. split.
  - apply valid_intro_lt; [rewrite Hl; exact Hflen|].
    intros k Hk. rewrite Hc. goal_decide.
    + split; [lia|]. apply Z.pow_pos_nonneg; lia.
    + apply (Hfcells k O); lia.
  - intros i Hi. destruct (pos_split i) as (k & j & -> & Hj).
    rewrite op_index_grp by lia. cbn [data_]. rewrite Hc.
    assert (Hk : (k < DS)%nat) by nia.
    destruct (decide (pk_cur st <= k)%nat) as [Hge|Hlt].
    + rewrite decide_True by lia. rewrite grp_0.
      rewrite decide_False; [reflexivity|].
      rewrite Hfcur in Hge. clear Hc Hfcells Hfcur. case_decide; nia.
    + rewrite decide_False by lia. apply Hfcells; lia.
Qed.

(** *** Construction from a C string *)

Lemma for_upM_done {S : Type} n (bodyM : nat -> S -> outcome S)
    (body : nat -> S -> S) (s : S) :
  (forall i st, (i < n)%nat -> bodyM i st = Done (body i st)) ->
  for_upM n bodyM s = Done (for_up n body s).
Proof.
  intros H. induction n as [|n IH]; [reflexivity|].
  unfold for_upM, for_up, for_range in *.
  rewrite seq_S, !fold_left_app. cbn [fold_left].
  rewrite IH by (intros i st Hi; apply H; lia).
  cbn [mbind outcome_bind]. apply H. lia.
Qed.

Lemma dignucl_range c : 0 <= dignucl c < 4.
Proof. unfold dignucl. repeat case_match; lia. Qed.

Lemma nucl_dignucl c : is_nucl c -> nucl (dignucl c) = c.
Proof.
  unfold is_nucl, dignucl, nucl. intros H.
  destruct (Z.eqb_spec c chC) as [HC|HC]; [subst c; reflexivity|].
  destruct (Z.eqb_spec c chG) as [HG|HG]; [subst c; reflexivity|].
  destruct (Z.eqb_spec c chT) as [HT|HT]; [subst c; reflexivity|].
  destruct (Z.eqb_spec c chA) as [HA|HA]; [subst c; reflexivity|].
  contradiction.
Qed.

Lemma read_Done s pos : (pos < length s)%nat -> read s pos = Done (s !!! pos).
Proof.
  intros H. unfold read. destruct (lookup_lt_is_Some_2 s pos H) as [c Hc].
  rewrite Hc, (list_lookup_total_correct _ _ _ Hc). reflexivity.
Qed.

Lemma DataSize_full :
  (if decide (size_ mod W = 0)%nat then size_ / W else S (size_ / W))%nat = DS.
Proof. destruct remain_split as [_ ->]. reflexivity. Qed.

(** [init] on a buffer that holds the [size_ + 1] characters it reads. *)
Lemma init_spec s mem :
  length mem = DS -> (size_ < length s)%nat ->
  exists q,
    valid size_ sizeofT q /\
    (forall i, (i < DS * W)%nat ->
       q @ i = if decide (i < size_)%nat then dignucl (s !!! i) else 0) /\
    init size_ sizeofT s mem =
      if s !!! size_ =? 0 then Done q else AssertionFailed.
Proof.
  intros Hmem Hlen.
  destruct (pack_spec (fun i => dignucl (s !!! i)) mem size_ Hmem (Nat.le_refl _))
    as (Hcur & Hv & Hget); [intros i _; apply dignucl_range|].
  cbv zeta in *. rewrite DataSize_full in Hcur. rewrite Hcur, Nat.sub_diag in Hv, Hget.
  change (for_range DS 0 ?f ?d) with d in Hv, Hget.
  eexists. split; [exact Hv|]. split; [exact Hget|].
  unfold init.
  rewrite (for_upM_done size_ _ (fun pos st => pack_step sizeofT (dignucl (s !!! pos)) st)).
  - cbn [mbind outcome_bind]. rewrite read_Done by lia. cbn [mbind outcome_bind].
    destruct (s !!! size_ =? 0); reflexivity.
  - intros i st Hi. rewrite read_Done by lia. reflexivity.
Qed.

(** *** Conversion to a string *)

Lemma str_spec q :
  length (str size_ sizeofT q) = size_ /\
  forall i, (i < size_)%nat -> str size_ sizeofT q !! i = Some (nucl (q @ i)).
Proof.
  unfold str.
  pose (P := fun (n : nat) (res : list Z) =>
    length res = size_ /\
    forall i, (i < n)%nat -> res !! i = Some (nucl (q @ i))).
  assert (HP : P size_
    (for_up size_ (fun i res => <[i := nucl (q @ i)]> res)
       (replicate size_ (char_of "-")))).
  { apply (for_up_ind P); subst P; cbv beta.
    - split; [apply length_replicate|]. intros i Hi. lia.
    - intros n res Hn [Hl Hres]. rewrite length_insert. split; [exact Hl|].
      intros i Hi. destruct (decide (i = n)) as [->|Hne].
      + apply list_lookup_insert_eq. lia.
      + rewrite list_lookup_insert_ne by lia. apply Hres. lia. }
  exact HP.
Qed.

(** *** The other constructors *)

(** Zero groups from some [n <= size_] on pad the sequence. *)
Lemma zero_tail_padded q n (code : nat -> Z) :
  (n <= size_)%nat ->
  (forall i, (i < DS * W)%nat -> q @ i = if decide (i < n)%nat then code i else 0) ->
  padded size_ sizeofT q.
Proof.
  intros Hn H. apply padded_spec. intros i Hi.
  rewrite H, decide_False by lia. reflexivity.
Qed.

Lemma Seq_default_ok :
  valid size_ sizeofT (Seq_default size_ sizeofT) /\
  padded size_ sizeofT (Seq_default size_ sizeofT).
Proof.
  unfold Seq_default. rewrite (toT_small 0) by lia. split.
  - apply valid_intro_lt; [apply length_replicate|]. intros k Hk.
    rewrite lookup_total_replicate_2 by lia.
    split; [lia|]. apply Z.pow_pos_nonneg; lia.
  - apply padded_spec. intros i Hi.
    destruct (pos_split i) as (k & j & -> & Hj).
    rewrite op_index_grp by lia. cbn [data_].
    rewrite lookup_total_replicate_2 by nia. apply grp_0.
Qed.

Lemma GetZero_index i :
  (i < DS * W)%nat -> GetZero size_ sizeofT @ i = 3.
Proof.
  intros Hi. destruct (pos_split i) as (k & j & -> & Hj).
  rewrite op_index_grp by lia. unfold GetZero, SetZero. cbn [data_].
  rewrite lookup_total_replicate_2 by nia.
  transitivity (grp 3 0); [|apply grp_code; lia]. apply grp_bits. intros b Hb.
  rewrite toT_mod. rewrite Z.testbit_mod_pow2, Z.bits_m1, testbit_3 by lia.
  destruct (Z.ltb_spec (b + 2 * Z.of_nat j) (2 * Z.of_nat W)); [|lia].
  destruct (Z.ltb_spec (b + 2 * Z.of_nat 0) 2); [reflexivity|lia].
Qed.

Lemma Seq_of_source_spec (s : nat -> Z) offset n mem :
  length mem = DS -> (n <= size_)%nat ->
  is_dignucl (s O) || is_nucl (s O) ->
  (is_dignucl (s O) ->
   forall i, (i < n)%nat -> is_dignucl (s (offset + i)%nat)) ->
  exists q,
    Seq_of_source size_ sizeofT s offset n mem = Done q /\
    valid size_ sizeofT q /\
    forall i, (i < DS * W)%nat ->
      q @ i = if decide (i < n)%nat
              then (if is_dignucl (s O) then s (offset + i)%nat
                    else dignucl (s (offset + i)%nat))
              else 0.
Proof.
  intros Hmem Hn Hfirst Hdig. unfold Seq_of_source.
  destruct (is_dignucl (s O) || is_nucl (s O)); [|contradiction].
  cbn [VERIFY mbind outcome_bind mret outcome_ret].
  eexists. split; [reflexivity|].
  pose (code := fun i : nat =>
    if is_dignucl (s O) then s (offset + i)%nat else dignucl (s (offset + i)%nat)).
  destruct (pack_spec code mem n Hmem Hn) as (_ & Hv & Hget).
  - intros i Hi. subst code. cbv beta.
    destruct (is_dignucl (s O)) eqn:Hd; [|apply dignucl_range].
    specialize (Hdig I i Hi). unfold is_dignucl in Hdig.
    apply andb_prop_elim in Hdig as [H1 H2].
    apply Is_true_eq_true in H1, H2. lia.
  - split; [exact Hv|exact Hget].
Qed.

Lemma copy_cells (data_array mem : list Z) n :
  let d := for_up n (fun i d => <[i := data_array !!! i]> d) mem in
  length d = length mem /\
  forall k, d !!! k =
    if decide (k < n /\ k < length mem)%nat then data_array !!! k else mem !!! k.
Proof.
  cbv zeta.
  pose (P := fun (n : nat) (d : list Z) =>
    length d = length mem /\
    forall k, d !!! k =
      if decide (k < n /\ k < length mem)%nat then data_array !!! k else mem !!! k).
  apply (for_up_ind P); subst P; cbv beta.
  - split; [reflexivity|]. intros k. rewrite decide_False by lia. reflexivity.
  - intros i d Hi [Hl Hc]. rewrite length_insert. split; [exact Hl|].
    intros k. rewrite list_lookup_total_insert, Hc, Hl.
    repeat case_decide; destruct_and?; subst; try lia; reflexivity.
Qed.

(** What [Seq(T* data_array)] leaves in the storage: when [size_] is a
    multiple of [TNucl] the last cell keeps what the storage held. *)
Lemma Seq_of_array_spec data_array mem :
  valid size_ sizeofT (mkSeq mem) ->
  (forall k, 0 <= data_array !!! k < 2 ^ (2 * Z.of_nat W)) ->
  valid size_ sizeofT (Seq_of_array size_ sizeofT data_array mem) /\
  padded size_ sizeofT (Seq_of_array size_ sizeofT data_array mem) /\
  forall i, (i < size_)%nat ->
    Seq_of_array size_ sizeofT data_array mem @ i =
      if decide (size_ mod W = 0 /\ (DS - 1) * W <= i)%nat
      then mkSeq mem @ i else mkSeq data_array @ i.
Proof.
  intros Hmem Hda. pose proof (valid_length _ Hmem) as Hlen. cbn [data_] in Hlen.
  destruct (copy_cells data_array mem (DS - 1)) as [Hl Hc]. cbv zeta in Hl, Hc.
  destruct remain_split as [[Hsz Hm] HDS].
  unfold Seq_of_array, NuclsRemain, MaskForLastBucket, NuclsRemain.
  rewrite cell_offset. set (d := for_up _ _ mem) in *.
  destruct (Nat.eqb_spec (size_ mod W) 0) as [H0|H0].
  - rewrite decide_True in HDS by exact H0. split_and!.
    + apply valid_intro; [lia|]. intros k. rewrite Hc.
      goal_decide; [apply Hda|apply (valid_cell _ k Hmem)].
    + apply full_padded, H0.
    + intros i Hi. destruct (pos_split i) as (k & j & -> & Hj).
      rewrite !op_index_grp by lia. cbn [data_]. rewrite Hc.
      assert (k < DS)%nat by nia.
      repeat goal_decide; destruct_and?; try reflexivity; nia.
  - rewrite decide_False in HDS by exact H0. rewrite mask_ones by lia. split_and!.
    + apply valid_intro; [rewrite length_insert; lia|]. intros k.
      rewrite list_lookup_total_insert. goal_decide; [apply toT_range|].
      rewrite Hc. goal_decide; [apply Hda|apply (valid_cell _ k Hmem)].
    + apply masked_padded; [exact H0|lia].
    + intros i Hi. rewrite decide_False by lia.
      destruct (pos_split i) as (k & j & -> & Hj).
      rewrite !op_index_grp by lia. cbn [data_].
      assert (k < DS)%nat by nia.
      rewrite list_lookup_total_insert by lia.
      destruct (decide (DS - 1 = k)%nat) as [<-|Hne].
      * rewrite decide_True by lia. rewrite grp_toT, grp_land_ones by lia.
        apply decide_True. nia.
      * rewrite decide_False by lia. rewrite Hc, decide_True by lia. reflexivity.
Qed.

(** *** C strings *)

Lemma strlen_spec s n :
  strlen s = Some n ->
  s !! n = Some 0 /\ forall i, (i < n)%nat -> exists c, s !! i = Some c /\ c <> 0.
Proof.
  revert n. induction s as [|c s IH]; intros n Hn; [discriminate|].
  cbn [strlen] in Hn. destruct (Z.eqb_spec c 0) as [->|Hc].
  - injection Hn as <-. split; [reflexivity|]. intros i Hi. lia.
  - destruct (strlen s) as [m|]; [|discriminate]. injection Hn as <-.
    destruct (IH m eq_refl) as [H0 Hlt]. split; [exact H0|].
    intros [|i] Hi; [exists c; split; [reflexivity|exact Hc]|].
    apply Hlt. lia.
Qed.

(** * The claims *)


(** C4. Round trip: for a string [cs] of exactly [size_] characters over
    {A,C,G,T}, constructing a sequence from the C string [cs] and
    converting it back with [str()] returns [cs]. *)
Theorem string_round_trip cs mem :
  length cs = size_ -> Forall (fun c => Is_true (is_nucl c)) cs ->
  length mem = DS ->
  exists q, Seq_of_cstr size_ sizeofT (cs ++ [0]) mem = Done q /\
            str size_ sizeofT q = cs.
Proof.
  intros Hlen Hcs Hmem. pose proof size_le_cells as Hle.
  destruct (init_spec (cs ++ [0]) mem Hmem) as (q & Hv & Hget & Hinit).
  { rewrite length_app. simpl. lia. }
  assert (Hterm : (cs ++ [0]) !!! size_ = 0).
  { apply list_lookup_total_correct. rewrite <- Hlen. apply list_lookup_middle. reflexivity. }
  rewrite Hterm in Hinit. exists q. split; [exact Hinit|].
  destruct (str_spec q) as [Hsl Hstr].
  apply list_eq. intros i. destruct (decide (i < size_)%nat) as [Hi|Hi].
  - rewrite Hstr, Hget, decide_True by lia.
    destruct (lookup_lt_is_Some_2 cs i ltac:(lia)) as [c Hc].
    rewrite (list_lookup_total_correct (cs ++ [0]) i c)
      by (rewrite lookup_app_l by lia; exact Hc).
    rewrite Hc, nucl_dignucl; [reflexivity|].
    rewrite Forall_forall in Hcs. apply Hcs, list_elem_of_In, list_elem_of_lookup.
    exists i. exact Hc.
  - rewrite !lookup_ge_None_2 by lia. reflexivity.
Qed.

(** C5. Reverse complement is an involution, [!(!q) == q], and pointwise
    correct: [(!q)[i] == complement(q[size_ - 1 - i])] for every
    [i < size_]. *)
Theorem reverse_complement q :
  valid size_ sizeofT q ->
  op_eq size_ sizeofT (op_not size_ sizeofT (op_not size_ sizeofT q)) q = true /\
  forall i, (i < size_)%nat ->
    op_not size_ sizeofT q @ i = complement (q @ (size_ - 1 - i)).
Proof.
  intros Hv. destruct (op_not_spec q Hv) as [Hv1 H1].
  destruct (op_not_spec _ Hv1) as [Hv2 _]. pose proof size_le_cells as Hle. split.
  - apply op_eq_data; [exact Hv2|exact Hv|]. apply op_not_involutive_data, Hv.
  - intros i Hi. rewrite H1, decide_True by lia. reflexivity.
Qed.


(** C7. [BinWrite] on a stream that takes them emits exactly
    [sizeof(T) * DataSize] bytes, and [BinRead] of those bytes at the same
    [size_] and [T] yields a sequence with identical storage, equal to the
    one written. *)
Theorem serialization_round_trip q file rest q0 :
  valid size_ sizeofT q ->
  out_fail file = false -> (sizeofT * DS <= out_room file)%nat ->
  exists bs file',
    BinWrite size_ sizeofT file q = (true, file') /\
    out_bytes file' = out_bytes file ++ bs /\
    length bs = (sizeofT * DS)%nat /\
    exists q',
      BinRead size_ sizeofT (mkIstream (bs ++ rest) false false) q0
        = (true, mkIstream rest false false, q') /\
      data_ q' = data_ q /\
      op_eq size_ sizeofT q' q = true.
Proof.
  intros Hv Hgood Hroom.
  assert (Hlen : length (bytes_of sizeofT q) = (sizeofT * DS)%nat)
    by (rewrite length_bytes_of, (valid_length q Hv); reflexivity).
  assert (Htake : take (sizeofT * DS) (bytes_of sizeofT q) = bytes_of sizeofT q)
    by (rewrite <- Hlen; apply firstn_all).
  exists (bytes_of sizeofT q),
    (mkOstream (out_bytes file ++ bytes_of sizeofT q)
       (out_room file - length (bytes_of sizeofT q)) false).
  split_and!.
  - unfold BinWrite, ostream_write. rewrite Hgood, Htake.
    rewrite (proj2 (Nat.leb_le _ _)) by lia. reflexivity.
  - reflexivity.
  - exact Hlen.
  - eexists. split_and!.
    + unfold BinRead, istream_read. cbn [in_eof in_fail in_bytes orb].
      rewrite (proj2 (Nat.leb_le _ _)) by (rewrite length_app; lia).
      rewrite take_app_length', drop_app_length' by lia.
      cbn [in_fail negb]. reflexivity.
    + cbn [data_]. apply cells_of_bytes_of, Hv.
    + assert (Hd : data_ (mkSeq (cells_of_bytes sizeofT DS
         (bytes_of sizeofT q ++ drop (length (bytes_of sizeofT q)) (bytes_of sizeofT q0))))
         = data_ q) by apply cells_of_bytes_of, Hv.
      apply op_eq_data; [|exact Hv|exact Hd]. cbn [data_] in Hd.
      apply valid_intro; [rewrite Hd; apply valid_length, Hv|].
      intros k. rewrite Hd. apply valid_cell, Hv.
Qed.

(** C8. [BinRead] returns false iff the stream was not good or holds
    fewer than [sizeof(T) * DataSize] bytes; [BinWrite] returns false iff
    the stream had failed or its sink refuses some of the bytes.  Both
    always return: the flag is the only report of the failure. *)
Theorem serialization_failure ifile ofile q :
  valid size_ sizeofT q ->
  ((BinRead size_ sizeofT ifile q).1.1 = false <->
     in_eof ifile || in_fail ifile = true
     \/ (length (in_bytes ifile) < sizeofT * DS)%nat) /\
  ((BinWrite size_ sizeofT ofile q).1 = false <->
     out_fail ofile = true \/ (out_room ofile < sizeofT * DS)%nat).
Proof.
  intros Hv.
  assert (Hlen : length (bytes_of sizeofT q) = (sizeofT * DS)%nat)
    by (rewrite length_bytes_of, (valid_length q Hv); reflexivity).
  split.
  - unfold BinRead, istream_read.
    destruct (in_eof ifile || in_fail ifile) eqn:Hgood; cbn [fst snd in_fail negb].
    + split; [intros _; left; reflexivity|reflexivity].
    + destruct (Nat.leb_spec (sizeofT * DS) (length (in_bytes ifile)));
        cbn [fst snd in_fail negb].
      * split; [discriminate|]. intros [H0|H0]; [discriminate|lia].
      * split; [intros _; right; assumption|reflexivity].
  - assert (Htake : take (sizeofT * DS) (bytes_of sizeofT q) = bytes_of sizeofT q)
      by (rewrite <- Hlen; apply firstn_all).
    unfold BinWrite, ostream_write. rewrite Htake, Hlen.
    destruct (out_fail ofile) eqn:Hf; cbn [fst].
    + rewrite Hf. split; [intros _; left; reflexivity|reflexivity].
    + destruct (Nat.leb_spec (sizeofT * DS) (out_room ofile)); cbn [out_fail negb].
      * split; [discriminate|]. intros [H0|H0]; [discriminate|lia].
      * split; [intros _; right; assumption|reflexivity].
Qed.

(** C10. The hash functor agrees with the member hash, and the equality
    functor with the equality operator. *)
Theorem functors_agree l r :
  hash size_ sizeofT l = GetHash size_ sizeofT l /\
  equal_to size_ sizeofT l r = op_eq size_ sizeofT l r.
Proof.
  split; [reflexivity|]. unfold equal_to, op_eq. apply Z.eqb_sym.
Qed.

Lemma strlen_lt s n : strlen s = Some n -> (n < length s)%nat.
Proof.
  intros H. apply strlen_spec in H as [H _]. apply lookup_lt_Some in H. exact H.
Qed.

Lemma op_shl_letter q c :
  is_nucl c -> op_shl size_ sizeofT q c = op_shl size_ sizeofT q (dignucl c).
Proof.
  intros H. unfold op_shl. apply Is_true_eq_true in H. rewrite H.
  rewrite (is_nucl_code (dignucl c)) by apply dignucl_range. reflexivity.
Qed.

Lemma is_dignucl_range c : is_dignucl c -> 0 <= c < 4.
Proof.
  unfold is_dignucl. intros H. apply andb_prop_elim in H as [H1 H2].
  apply Is_true_eq_true in H1, H2. lia.
Qed.

Lemma op_shl_ok q c :
  valid size_ sizeofT q -> padded size_ sizeofT q ->
  is_dignucl c || is_nucl c ->
  valid size_ sizeofT (op_shl size_ sizeofT q c) /\
  padded size_ sizeofT (op_shl size_ sizeofT q c).
Proof.
  intros Hv Hp Hc. destruct (Nat.eq_dec size_ O) as [H0|H0].
  - assert (HDS : DS = O).
    { rewrite DataSize_div, H0. apply Nat.div_small. pose proof TNucl_pos. lia. }
    unfold op_shl. rewrite HDS. cbn [Nat.eqb]. destruct q as [d]. split; assumption.
  - assert (Hcode : exists c', 0 <= c' < 4 /\
              op_shl size_ sizeofT q c = op_shl size_ sizeofT q c').
    { destruct (is_nucl c) eqn:Hn.
      - exists (dignucl c). split; [apply dignucl_range|].
        apply op_shl_letter. rewrite Hn. exact I.
      - exists c. split; [|reflexivity]. apply is_dignucl_range.
        apply orb_prop_elim in Hc as [Hc|Hc]; [exact Hc|contradiction]. }
    destruct Hcode as (c' & Hc' & ->). split.
    + apply op_shl_spec; [assumption|lia|assumption].
    + apply op_shl_padded; [assumption|assumption|lia|assumption].
Qed.

Lemma range_of_Forall (d : list Z) k :
  Forall (fun x => 0 <= x < 2 ^ Z.of_nat (TBits sizeofT)) d ->
  0 <= d !!! k < 2 ^ (2 * Z.of_nat W).
Proof.
  intros H. replace (2 * Z.of_nat W) with (Z.of_nat (TBits sizeofT))
    by (rewrite TBits_TNucl; lia).
  destruct (d !! k) as [x|] eqn:Hk.
  - rewrite (list_lookup_total_correct _ _ _ Hk).
    rewrite Forall_forall in H. apply H, list_elem_of_In, list_elem_of_lookup. eauto.
  - rewrite list_lookup_total_alt, Hk. simpl.
    pose proof pow_W_ge as Hp. change (2 ^ 8) with 256 in Hp.
    rewrite TBits_TNucl. replace (Z.of_nat (2 * W)) with (2 * Z.of_nat W) by lia. lia.
Qed.

(** C1 (amended). Every sequence built by the default constructor, from a
    C string, from an indexable source or from a pre-packed buffer, and
    every shift left, shift right or reverse complement of such a sequence,
    has the value 0 in every 2-bit group of its storage from position
    [size_] on.  [GetZero] is not among them: it fills the storage with
    ones, and every 2-bit group of it is 3. *)
Theorem padding_invariant :
  (forall q, constructed size_ sizeofT q ->
     valid size_ sizeofT q /\ padded size_ sizeofT q) /\
  (forall i, (i < DS * W)%nat -> GetZero size_ sizeofT @ i = 3).
Proof.
  split; [|exact GetZero_index].
  induction 1 as [ | s mem q Hmem Hlen Hs Hq | s offset n mem q Hmem Hn Hdig Hnuc Hq
                   | data_array mem Hmem Hda | q c Hq [Hv Hp] Hc
                   | q c r Hq [Hv Hp] Hr | q Hq [Hv Hp] ].
  - apply Seq_default_ok.
  - destruct (init_spec s mem Hmem (strlen_lt _ _ Hlen)) as (q' & Hv & Hget & Hinit).
    unfold Seq_of_cstr in Hq. rewrite Hq in Hinit.
    destruct (s !!! size_ =? 0); [|discriminate]. injection Hinit as ->.
    split; [exact Hv|]. exact (zero_tail_padded _ size_ _ (Nat.le_refl _) Hget).
  - destruct (is_dignucl (s O) || is_nucl (s O)) eqn:Hfirst.
    + destruct (Seq_of_source_spec s offset n mem Hmem Hn) as (q' & Hq' & Hv & Hget).
      * rewrite Hfirst. exact I.
      * exact Hdig.
      * rewrite Hq in Hq'. injection Hq' as ->.
        split; [exact Hv|]. exact (zero_tail_padded _ n _ Hn Hget).
    + unfold Seq_of_source in Hq. rewrite Hfirst in Hq. discriminate.
  - destruct (Seq_of_array_spec data_array mem Hmem) as (Hv & Hp & _).
    + intros k. apply range_of_Forall, Hda.
    + split; assumption.
  - apply op_shl_ok; assumption.
  - destruct (is_dignucl (if is_nucl c then dignucl c else c)) eqn:Hc.
    + destruct (op_shr_ok q c Hv) as (r' & Hr' & Hvr & Hpr).
      * rewrite Hc. exact I.
      * rewrite Hr in Hr'. injection Hr' as ->. split; assumption.
    + unfold op_shr in Hr. rewrite Hc in Hr. discriminate.
  - destruct (op_not_spec q Hv) as [Hv' Hget]. split; [exact Hv'|].
    rewrite padded_spec in Hp. apply padded_spec. intros i Hi.
    rewrite Hget, decide_False by lia. apply Hp, Hi.
Qed.



(** * Further properties of the class *)

(** *** Shift right, symbol by symbol *)

Lemma grp_of_code c j : 0 <= c < 4 -> grp c j = if decide (j = O) then c else 0.
Proof.
  intros Hc. destruct (decide (j = O)) as [->|Hj]; [apply grp_code, Hc|].
  apply (grp_high 1); [change (2 ^ (2 * Z.of_nat 1)) with 4; lia|lia].
Qed.

Lemma toT_top2 x : toT sizeofT (Z.land (Z.shiftr x (Z.of_nat (TBits sizeofT - 2))) 3)
                   = grp x (W - 1).
Proof.
  rewrite TBits_minus_2. unfold grp. apply toT_small.
  pose proof (grp_range x (W - 1)) as H. unfold grp in H. lia.
Qed.

(** The carry loop of [operator>>], cell by cell. *)
Lemma op_shr_cells d rm n :
  (n <= length d)%nat ->
  let body := fun (i : nat) (st : list Z * Z) =>
    let data := fst st in
    let rm := snd st in
    let new_rm :=
      toT sizeofT (Z.land (Z.shiftr (data !!! i) (Z.of_nat (TBits sizeofT - 2))) 3) in
    (<[i := toT sizeofT (Z.lor (Z.shiftl (data !!! i) 2) rm)]> data, new_rm) in
  let d' := fst (for_up n body (d, rm)) in
  forall k, d' !!! k =
    if decide (k < n)%nat then
      toT sizeofT (Z.lor (Z.shiftl (d !!! k) 2)
                     (if decide (k = O) then rm else grp (d !!! (k - 1)%nat) (W - 1)))
    else d !!! k.
Proof.
  intros Hn body.
  pose (P := fun (i : nat) (st : list Z * Z) =>
    length (fst st) = length d /\
    snd st = (if decide (i = O) then rm else grp (d !!! (i - 1)%nat) (W - 1)) /\
    forall k, fst st !!! k =
      if decide (k < i)%nat then
        toT sizeofT (Z.lor (Z.shiftl (d !!! k) 2)
                       (if decide (k = O) then rm else grp (d !!! (k - 1)%nat) (W - 1)))
      else d !!! k).
  assert (HP : P n (for_up n body (d, rm))).
  { apply (for_up_ind P); subst P; cbv beta.
    - cbn [fst snd]. rewrite decide_True by reflexivity.
      split; [reflexivity|]. split; [reflexivity|].
      intros k. rewrite decide_False by lia. reflexivity.
    - intros i [data rm0] Hi (Hlen & Hrm & Hcells). cbn [fst snd] in *.
      unfold body. cbn [fst snd]. rewrite length_insert.
      split; [exact Hlen|]. split.
      + rewrite toT_top2, (Hcells i), (decide_False (P := (i < i)%nat)) by lia.
        rewrite (decide_False (P := (S i = O))) by lia.
        replace (S i - 1)%nat with i by lia. reflexivity.
      + intros k. rewrite list_lookup_total_insert by lia.
        rewrite (Hcells i), Hrm, (Hcells k).
        repeat case_decide; destruct_and?; subst; try lia; reflexivity. }
  destruct HP as (_ & _ & Hcells). exact Hcells.
Qed.

Lemma op_shr_letter q c :
  is_nucl c -> op_shr size_ sizeofT q c = op_shr size_ sizeofT q (dignucl c).
Proof.
  intros H. unfold op_shr. apply Is_true_eq_true in H. rewrite H.
  rewrite (is_nucl_code (dignucl c)) by apply dignucl_range. reflexivity.
Qed.

Lemma is_dignucl_code c : 0 <= c < 4 -> is_dignucl c = true.
Proof.
  intros Hc. unfold is_dignucl.
  rewrite (proj2 (Z.leb_le 0 c)), (proj2 (Z.ltb_lt c 4)) by lia. reflexivity.
Qed.

(** What [operator>>] leaves in every 2-bit group of the storage. *)
Lemma op_shr_spec q c :
  valid size_ sizeofT q -> 0 <= c < 4 ->
  exists r, op_shr size_ sizeofT q c = Done r /\
    valid size_ sizeofT r /\ padded size_ sizeofT r /\
    forall i, (i < DS * W)%nat ->
      r @ i = if decide (i < size_)%nat
              then (if decide (i = O) then c else q @ (i - 1)) else 0.
Proof.
  intros Hv Hc.
  destruct (op_shr_ok q c Hv) as (r & Hr & Hvr & Hpr).
  { rewrite (is_nucl_code c Hc), (is_dignucl_code c Hc). exact I. }
  exists r. split_and!; try assumption.
  pose proof (valid_length q Hv) as Hlen. pose proof TNucl_pos as HW.
  rewrite padded_spec in Hpr.
  intros i Hi. destruct (decide (i < size_)%nat) as [Hlt|Hge]; [|apply Hpr; lia].
  revert Hr. unfold op_shr.
  rewrite (is_nucl_code c Hc), (is_dignucl_code c Hc), (toT_small c) by lia.
  cbn [VERIFY mbind outcome_bind mret outcome_ret].
  match goal with
  | |- context [for_up ?n ?b ?s] => set (body := b)
  end.
  set (loop := for_up _ body _).
  assert (Hcells : forall k, fst loop !!! k =
    if decide (k < DS)%nat then
      toT sizeofT (Z.lor (Z.shiftl (data_ q !!! k) 2)
                     (if decide (k = O) then c else grp (data_ q !!! (k - 1)%nat) (W - 1)))
    else data_ q !!! k).
  { apply (op_shr_cells (data_ q) c DS). lia. }
  assert (Hloop : length (fst loop) = DS).
  { apply (op_shr_loop (data_ q) c DS);
      [exact Hlen | intros k; apply valid_cell, Hv]. }
  rewrite cell_offset. destruct remain_split as [[Hsz Hm] _].
  destruct (pos_split i) as (k & j & -> & Hj).
  assert (Hk : (k < DS)%nat) by nia.
  assert (Hbefore : grp (fst loop !!! k) j
                    = if decide (k * W + j = O)%nat then c else q @ (k * W + j - 1)).
  { rewrite Hcells, decide_True by lia.
    rewrite grp_toT, grp_lor, grp_shiftl2 by lia.
    destruct (decide (j = O)) as [->|Hj0].
    - rewrite Z.lor_0_l. destruct (decide (k = O)) as [->|Hk0].
      + rewrite grp_of_code, !decide_True by lia. reflexivity.
      + rewrite grp_of_code, decide_True by (try apply grp_range; lia).
        rewrite decide_False by lia.
        replace (k * W + 0 - 1)%nat with ((k - 1) * W + (W - 1))%nat by nia.
        rewrite op_index_grp by lia. reflexivity.
    - rewrite (decide_False (P := (k * W + j = O)%nat)) by lia.
      assert (Hcarry : 0 <= (if decide (k = O) then c
                             else grp (data_ q !!! (k - 1)%nat) (W - 1)) < 4).
      { case_decide; [lia|apply grp_range]. }
      rewrite (grp_of_code _ j Hcarry), (decide_False (P := (j = O))), Z.lor_0_r
        by assumption.
      replace (k * W + j - 1)%nat with (k * W + (j - 1))%nat by lia.
      rewrite op_index_grp by lia. reflexivity. }
  destruct (Nat.eqb_spec (size_ mod W) 0) as [H0|H0].
  - intros [= <-]. rewrite op_index_grp by lia. cbn [data_]. exact Hbefore.
  - rewrite toT_shift
      by (rewrite Nat.shiftl_mul_pow2; change (2 ^ 1)%nat with 2%nat; lia).
    rewrite mask_ones by lia. intros [= <-].
    destruct remain_split as [_ HDS]. rewrite decide_False in HDS by exact H0.
    rewrite op_index_grp by lia. cbn [data_].
    rewrite list_lookup_total_insert by lia.
    destruct (decide (DS - 1 = k)%nat) as [Hl|Hl].
    + rewrite (decide_True (P := (_ /\ _))) by lia.
      rewrite grp_toT, grp_land_ones by lia.
      rewrite (decide_True (P := (j < _)%nat)) by nia. rewrite Hl. exact Hbefore.
    + rewrite (decide_False (P := (_ /\ _))) by lia. exact Hbefore.
Qed.


(** *** Shifts and reverse complement together *)

Lemma op_shl_symbols q c :
  valid size_ sizeofT q -> padded size_ sizeofT q -> (0 < size_)%nat ->
  0 <= c < 4 ->
  forall i, (i < DS * W)%nat ->
    op_shl size_ sizeofT q c @ i =
      if decide (i < size_ - 1)%nat then q @ (S i)
      else if decide (i = size_ - 1)%nat then c else 0.
Proof.
  intros Hv Hp Hpos Hc i Hi.
  destruct (decide (i < size_ - 1)%nat); [apply op_shl_shifted; assumption|].
  destruct (decide (i = size_ - 1)%nat) as [->|];
    [apply op_shl_appended; assumption|].
  pose proof (op_shl_padded q c Hv Hp Hpos Hc) as Hp'.
  rewrite padded_spec in Hp'. apply Hp'. lia.
Qed.

Lemma op_not_padded q :
  valid size_ sizeofT q -> padded size_ sizeofT q ->
  padded size_ sizeofT (op_not size_ sizeofT q).
Proof.
  intros Hv Hp. destruct (op_not_spec q Hv) as [_ Hget].
  rewrite padded_spec in Hp. apply padded_spec. intros i Hi.
  rewrite Hget, decide_False by lia. apply Hp, Hi.
Qed.

(** X1. Shift right: [(q >> c)[0] == c] and [(q >> c)[i] == q[i - 1]] for
    [0 < i < size_], and the padding of the result is zero whatever the
    padding of [q] was. *)
Theorem shift_right_consistency q c :
  valid size_ sizeofT q -> (0 < size_)%nat -> 0 <= c < 4 ->
  exists r, op_shr size_ sizeofT q c = Done r /\
    first sizeofT r = c /\
    (forall i, (0 < i < size_)%nat -> r @ i = q @ (i - 1)) /\
    padded size_ sizeofT r.
Proof.
  intros Hv Hpos Hc. pose proof size_le_cells as Hle.
  destruct (op_shr_spec q c Hv Hc) as (r & Hr & Hvr & Hpr & Hsym).
  exists r. split_and!; try assumption.
  - unfold first. rewrite Hsym, !decide_True by lia. reflexivity.
  - intros i Hi. rewrite Hsym, decide_True, decide_False by lia. reflexivity.
Qed.

(** X2. Shifting left and then shifting the dropped first symbol back in
    gives the sequence back: [(q << c) >> q.first() == q]. *)
Theorem shift_left_then_right q c :
  valid size_ sizeofT q -> padded size_ sizeofT q -> (0 < size_)%nat ->
  0 <= c < 4 ->
  exists r, op_shr size_ sizeofT (op_shl size_ sizeofT q c) (first sizeofT q) = Done r /\
            op_eq size_ sizeofT r q = true.
Proof.
  intros Hv Hp Hpos Hc. pose proof size_le_cells as Hle.
  destruct (op_shl_spec q c Hv Hpos Hc) as [Hvl _].
  pose proof (op_shl_symbols q c Hv Hp Hpos Hc) as Hl.
  destruct (op_shr_spec _ (first sizeofT q) Hvl (op_index_range q O))
    as (r & Hr & Hvr & _ & Hsym).
  exists r. split; [exact Hr|]. apply op_eq_data; try assumption.
  apply data_ext; try assumption. intros i Hi. rewrite Hsym by assumption.
  rewrite padded_spec in Hp.
  destruct (decide (i < size_)%nat); [|symmetry; apply Hp; lia].
  destruct (decide (i = O)) as [->|]; [reflexivity|].
  rewrite Hl, decide_True by lia. f_equal. lia.
Qed.

(** X3. Shifting right and then shifting the dropped last symbol back in
    gives the sequence back: [(q >> c) << q.last() == q]. *)
Theorem shift_right_then_left q c :
  valid size_ sizeofT q -> padded size_ sizeofT q -> (0 < size_)%nat ->
  0 <= c < 4 ->
  exists r, op_shr size_ sizeofT q c = Done r /\
            op_eq size_ sizeofT (op_shl size_ sizeofT r (last size_ sizeofT q)) q = true.
Proof.
  intros Hv Hp Hpos Hc. pose proof size_le_cells as Hle.
  destruct (op_shr_spec q c Hv Hc) as (r & Hr & Hvr & Hpr & Hsym).
  pose proof (op_index_range q (size_ - 1)) as Hlast.
  destruct (op_shl_spec r _ Hvr Hpos Hlast) as [Hvl _].
  pose proof (op_shl_symbols r _ Hvr Hpr Hpos Hlast) as Hl.
  exists r. split; [exact Hr|]. apply op_eq_data; try assumption.
  apply data_ext; try assumption. intros i Hi. rewrite Hl by assumption.
  rewrite padded_spec in Hp.
  destruct (decide (i < size_ - 1)%nat).
  - rewrite Hsym, decide_True, decide_False by lia. f_equal. lia.
  - destruct (decide (i = size_ - 1)%nat) as [->|]; [reflexivity|].
    symmetry. apply Hp. lia.
Qed.

(** X4. Reverse complement turns a shift left into a shift right by the
    complementary symbol, and the other way round:
    [!(q << c) == (!q) >> complement(c)] and
    [!(q >> c) == (!q) << complement(c)]. *)
Theorem reverse_complement_of_shift q c :
  valid size_ sizeofT q -> padded size_ sizeofT q -> (0 < size_)%nat ->
  0 <= c < 4 ->
  (exists r, op_shr size_ sizeofT (op_not size_ sizeofT q) (complement c) = Done r /\
     op_eq size_ sizeofT (op_not size_ sizeofT (op_shl size_ sizeofT q c)) r = true) /\
  (exists r, op_shr size_ sizeofT q c = Done r /\
     op_eq size_ sizeofT (op_not size_ sizeofT r)
       (op_shl size_ sizeofT (op_not size_ sizeofT q) (complement c)) = true).
Proof.
  intros Hv Hp Hpos Hc. pose proof size_le_cells as Hle.
  pose proof (complement_range c Hc) as Hcc.
  destruct (op_not_spec q Hv) as [Hvn Hn].
  pose proof (op_not_padded q Hv Hp) as Hpn.
  pose proof Hp as Hp0. rewrite padded_spec in Hp0.
  split.
  - destruct (op_shl_spec q c Hv Hpos Hc) as [Hvl _].
    pose proof (op_shl_symbols q c Hv Hp Hpos Hc) as Hl.
    destruct (op_not_spec _ Hvl) as [Hvnl Hnl].
    destruct (op_shr_spec _ _ Hvn Hcc) as (r & Hr & Hvr & _ & Hsym).
    exists r. split; [exact Hr|]. apply op_eq_data; try assumption.
    apply data_ext; try assumption. intros i Hi.
    rewrite Hnl, Hsym by assumption. destruct (decide (i < size_)%nat).
    + rewrite Hl by lia. destruct (decide (i = O)) as [->|].
      * rewrite decide_False, decide_True by lia. reflexivity.
      * rewrite decide_True by lia. rewrite Hn, decide_True by lia.
        f_equal. f_equal. lia.
    + rewrite Hl, !decide_False by lia. reflexivity.
  - destruct (op_shr_spec q c Hv Hc) as (r & Hr & Hvr & Hpr & Hsym).
    destruct (op_not_spec _ Hvr) as [Hvnr Hnr].
    destruct (op_shl_spec _ _ Hvn Hpos Hcc) as [Hvl _].
    pose proof (op_shl_symbols _ _ Hvn Hpn Hpos Hcc) as Hl.
    exists r. split; [exact Hr|]. apply op_eq_data; try assumption.
    apply data_ext; try assumption. intros i Hi.
    rewrite Hnr, Hl by assumption. destruct (decide (i < size_)%nat).
    + rewrite Hsym, (decide_True (P := (size_ - 1 - i < size_)%nat)) by lia.
      destruct (decide (i < size_ - 1)%nat).
      * rewrite decide_False by lia. rewrite Hn, decide_True by lia.
        f_equal. f_equal. lia.
      * rewrite decide_True, decide_True by lia. reflexivity.
    + rewrite Hsym, !decide_False by lia. reflexivity.
Qed.


(** *** Strings, the default value and the sentinel *)

Lemma lookup_total_terminator (l : list Z) n x :
  length l = n -> (l ++ [x]) !!! n = x.
Proof.
  intros <-. apply list_lookup_total_correct, list_lookup_middle. reflexivity.
Qed.

Lemma is_nucl_nucl c : is_nucl (nucl c).
Proof. unfold nucl. repeat case_match; exact I. Qed.

Lemma dignucl_nucl c : 0 <= c < 4 -> dignucl (nucl c) = c.
Proof.
  intros Hc. assert (c = 0 \/ c = 1 \/ c = 2 \/ c = 3) as [->|[->|[->| ->]]] by lia;
    reflexivity.
Qed.

Lemma str_all q (x : Z) :
  (forall i, (i < size_)%nat -> q @ i = x) ->
  str size_ sizeofT q = replicate size_ (nucl x).
Proof.
  intros H. destruct (str_spec q) as [Hl Hs]. apply list_eq. intros i.
  destruct (decide (i < size_)%nat).
  - rewrite Hs, H, lookup_replicate_2 by lia. reflexivity.
  - rewrite !lookup_ge_None_2 by (rewrite ?length_replicate; lia). reflexivity.
Qed.

Lemma GetZero_valid : valid size_ sizeofT (GetZero size_ sizeofT).
Proof.
  unfold GetZero, SetZero. apply valid_intro_lt; [apply length_replicate|].
  intros k Hk. rewrite lookup_total_replicate_2 by lia. apply toT_range.
Qed.

(** X5. [Seq()] is the sequence of [size_] letters A. *)
Theorem default_is_all_A :
  str size_ sizeofT (Seq_default size_ sizeofT) = replicate size_ chA.
Proof.
  apply (str_all _ 0). intros i Hi.
  destruct Seq_default_ok as [_ Hp]. pose proof size_le_cells as Hle.
  destruct (pos_split i) as (k & j & -> & Hj).
  rewrite op_index_grp by lia. unfold Seq_default. cbn [data_].
  rewrite (toT_small 0), lookup_total_replicate_2 by nia. apply grp_0.
Qed.


(** X7. The sentinel [GetZero()] reads as the string of [size_] letters T. *)
Theorem GetZero_is_all_T :
  str size_ sizeofT (GetZero size_ sizeofT) = replicate size_ chT.
Proof.
  apply (str_all _ 3). intros i Hi. apply GetZero_index.
  pose proof size_le_cells. lia.
Qed.

(** X8. When [size_] is not a multiple of [TNucl], [GetZero()] compares
    unequal to every sequence within the class invariant; when it is, the
    sentinel is equal to the sequence constructed from [size_] letters T. *)
Theorem GetZero_distinct_or_all_T :
  ((size_ mod W <> 0)%nat ->
   forall q, valid size_ sizeofT q -> padded size_ sizeofT q ->
     op_eq size_ sizeofT (GetZero size_ sizeofT) q = false) /\
  ((size_ mod W = 0)%nat ->
   forall mem, length mem = DS ->
     exists r, Seq_of_cstr size_ sizeofT (replicate size_ chT ++ [0]) mem = Done r /\
               op_eq size_ sizeofT (GetZero size_ sizeofT) r = true).
Proof.
  pose proof GetZero_valid as Hz. split.
  - intros Hnr q Hv Hp. destruct remain_split as [[Hsz Hm] HDS].
    rewrite decide_False in HDS by exact Hnr.
    destruct (op_eq size_ sizeofT (GetZero size_ sizeofT) q) eqn:Heq; [|reflexivity].
    apply op_eq_data in Heq; try assumption.
    rewrite padded_spec in Hp. assert (Hlt : (size_ < DS * W)%nat) by nia.
    pose proof (GetZero_index size_ Hlt) as H3.
    unfold op_index in H3. rewrite Heq in H3. fold (q @ size_) in H3.
    rewrite Hp in H3 by lia. discriminate.
  - intros H0 mem Hmem. destruct remain_split as [[Hsz Hm] HDS].
    rewrite decide_True in HDS by exact H0.
    destruct (init_spec (replicate size_ chT ++ [0]) mem Hmem)
      as (r & Hvr & Hget & Hinit);
      [rewrite length_app, length_replicate; simpl; lia|].
    assert (Hterm : (replicate size_ chT ++ [0]) !!! size_ = 0)
      by (apply lookup_total_terminator, length_replicate).
    rewrite Hterm in Hinit. exists r. split; [exact Hinit|].
    apply op_eq_data; try assumption. apply data_ext; try assumption.
    intros i Hi. rewrite GetZero_index, Hget, decide_True by nia.
    rewrite (list_lookup_total_correct _ i chT); [reflexivity|].
    rewrite lookup_app_l by (rewrite length_replicate; nia).
    apply lookup_replicate_2. nia.
Qed.


(** *** The hashes as polynomials *)

Lemma for_up_ext {S : Type} n (body body' : nat -> S -> S) s :
  (forall i st, (i < n)%nat -> body i st = body' i st) ->
  for_up n body s = for_up n body' s.
Proof.
  intros H. induction n as [|n IH]; [reflexivity|].
  unfold for_up in *. rewrite !for_range_S. cbn [Nat.add].
  rewrite IH by (intros i st Hi; apply H; lia). apply H. lia.
Qed.

Lemma for_up_fold {S : Type} (f : S -> Z -> S) (d : list Z) s :
  for_up (length d) (fun i h => f h (d !!! i)) s = fold_left f d s.
Proof.
  induction d as [|x d IH] using rev_ind; [reflexivity|].
  rewrite length_app, fold_left_app. cbn [length fold_left].
  rewrite Nat.add_1_r. unfold for_up in *. rewrite for_range_S. cbn [Nat.add].
  rewrite <- IH. f_equal.
  - apply (for_up_ext (length d)). intros i st Hi. f_equal.
    apply list_lookup_total_correct. rewrite lookup_app_l by lia.
    apply list_lookup_lookup_total_lt. lia.
  - apply list_lookup_total_correct, list_lookup_middle. reflexivity.
Qed.

Lemma fold_horner_mod m M (d : list Z) s :
  fold_left (fun h x => (h * m + x) mod M) d (s mod M)
  = (fold_left (fun h x => h * m + x) d s) mod M.
Proof.
  revert s. induction d as [|x d IH]; intros s; [reflexivity|].
  cbn [fold_left]. rewrite <- IH. f_equal.
  rewrite <- Zplus_mod_idemp_l, Zmult_mod_idemp_l, Zplus_mod_idemp_l. reflexivity.
Qed.

Lemma GetHash_step h x :
  size_t (size_t (size_t (Z.shiftl h 5) - h) + x) = (h * 31 + x) mod 2 ^ 64.
Proof.
  unfold size_t. rewrite Z.shiftl_mul_pow2 by lia.
  rewrite Zminus_mod_idemp_l, Zplus_mod_idemp_l. f_equal. change (2 ^ 5) with 32. lia.
Qed.

Lemma GetHash_fold q :
  valid size_ sizeofT q ->
  GetHash size_ sizeofT q = horner 31 239 (data_ q) mod 2 ^ 64.
Proof.
  intros Hv. unfold GetHash, horner, PrimeNum.
  rewrite <- (valid_length q Hv), <- fold_horner_mod.
  change (239 mod 2 ^ 64) with 239. rewrite <- for_up_fold.
  apply for_up_ext. intros i st _. apply GetHash_step.
Qed.

(** X9. [GetHash()] is the polynomial hash of the cells: Horner evaluation
    with multiplier 31 from the seed 239, modulo 2^64. *)
Theorem GetHash_is_polynomial q :
  valid size_ sizeofT q ->
  GetHash size_ sizeofT q = horner 31 239 (data_ q) mod 2 ^ 64.
Proof. exact (GetHash_fold q). Qed.

(** X10. On sequences of one storage cell of at most 64 bits [GetHash()] has
    no collisions: equal hashes mean equal sequences. *)
Theorem GetHash_one_cell_injective q1 q2 :
  valid size_ sizeofT q1 -> valid size_ sizeofT q2 ->
  DS = 1%nat -> (sizeofT <= 8)%nat ->
  GetHash size_ sizeofT q1 = GetHash size_ sizeofT q2 ->
  op_eq size_ sizeofT q1 q2 = true.
Proof.
  intros H1 H2 HDS Hsz Hh. apply op_eq_data; try assumption.
  rewrite !GetHash_fold in Hh by assumption.
  pose proof (valid_length q1 H1) as L1. pose proof (valid_length q2 H2) as L2.
  rewrite HDS in L1, L2.
  destruct (data_ q1) as [|x1 [|? ?]] eqn:E1; try discriminate.
  destruct (data_ q2) as [|x2 [|? ?]] eqn:E2; try discriminate.
  assert (R1 : 0 <= x1 < 2 ^ (8 * Z.of_nat sizeofT))
    by (apply (valid_In q1 x1 H1); rewrite E1; left; reflexivity).
  assert (R2 : 0 <= x2 < 2 ^ (8 * Z.of_nat sizeofT))
    by (apply (valid_In q2 x2 H2); rewrite E2; left; reflexivity).
  assert (Hpow : 2 ^ (8 * Z.of_nat sizeofT) <= 2 ^ 64)
    by (apply Z.pow_le_mono_r; lia).
  unfold horner in Hh. cbn [fold_left] in Hh. f_equal.
  assert (Hm : x1 mod 2 ^ 64 = x2 mod 2 ^ 64).
  { replace x1 with ((239 * 31 + x1) - 239 * 31) by lia.
    replace x2 with ((239 * 31 + x2) - 239 * 31) by lia.
    rewrite <- (Zminus_mod_idemp_l (239 * 31 + x1)), Hh, Zminus_mod_idemp_l.
    reflexivity. }
  rewrite !Z.mod_small in Hm by lia. exact Hm.
Qed.

(** X11. With two storage cells [GetHash()] collides: adding 1 to the first
    cell and taking 31 from the second leaves the hash unchanged. *)
Theorem GetHash_two_cell_collision a b :
  DS = 2%nat ->
  0 <= a -> a + 1 < 2 ^ Z.of_nat (TBits sizeofT) ->
  31 <= b < 2 ^ Z.of_nat (TBits sizeofT) ->
  GetHash size_ sizeofT (mkSeq [a; b]) = GetHash size_ sizeofT (mkSeq [a + 1; b - 31]) /\
  op_eq size_ sizeofT (mkSeq [a; b]) (mkSeq [a + 1; b - 31]) = false.
Proof.
  intros HDS Ha Ha1 Hb.
  assert (Hr : Z.of_nat (TBits sizeofT) = 2 * Z.of_nat W) by (rewrite TBits_TNucl; lia).
  rewrite Hr in *.
  assert (V1 : valid size_ sizeofT (mkSeq [a; b])).
  { apply valid_intro_lt; [rewrite HDS; reflexivity|].
    intros [|[|k]] Hk; simpl; lia. }
  assert (V2 : valid size_ sizeofT (mkSeq [a + 1; b - 31])).
  { apply valid_intro_lt; [rewrite HDS; reflexivity|].
    intros [|[|k]] Hk; simpl; lia. }
  split.
  - rewrite !GetHash_fold by assumption. unfold horner. cbn [data_ fold_left].
    f_equal. lia.
  - destruct (op_eq size_ sizeofT _ _) eqn:Heq; [|reflexivity].
    apply op_eq_data in Heq; try assumption. cbn [data_] in Heq.
    injection Heq. lia.
Qed.

Lemma multiple_hash_step k h x :
  size_t (size_t (Z.shiftl h (Z.of_nat k)) + x) = (h * 2 ^ Z.of_nat k + x) mod 2 ^ 64.
Proof.
  unfold size_t. rewrite Z.shiftl_mul_pow2 by lia. apply Zplus_mod_idemp_l.
Qed.

Lemma horner_seed m h (d : list Z) :
  horner m h d = h * m ^ Z.of_nat (length d) + horner m 0 d.
Proof.
  unfold horner. revert h. induction d as [|x d IH] using rev_ind; intros h.
  - simpl. lia.
  - rewrite !fold_left_app, length_app. cbn [fold_left length].
    rewrite (IH h). replace (Z.of_nat (length d + 1)) with (Z.of_nat (length d) + 1) by lia.
    rewrite Z.pow_add_r, Z.pow_1_r by lia. lia.
Qed.

(** X12. [multiple_hash] is Horner evaluation of the cells with the multiplier
    [2^(hash_num + 1)] from the seed [h], modulo 2^64; once
    [(hash_num + 1) * DataSize] reaches 64 the seed is shifted out and the
    result does not depend on it. *)
Theorem multiple_hash_is_polynomial q hash_num h :
  valid size_ sizeofT q -> (S hash_num < 64)%nat -> 0 <= h < 2 ^ 64 ->
  multiple_hash size_ sizeofT q hash_num h
    = horner (2 ^ Z.of_nat (S hash_num)) h (data_ q) mod 2 ^ 64 /\
  ((64 <= S hash_num * DS)%nat ->
   multiple_hash size_ sizeofT q hash_num h = multiple_hash size_ sizeofT q hash_num 0).
Proof.
  intros Hv Hk Hh.
  assert (Hfold : forall h0, 0 <= h0 < 2 ^ 64 ->
    multiple_hash size_ sizeofT q hash_num h0
    = horner (2 ^ Z.of_nat (S hash_num)) h0 (data_ q) mod 2 ^ 64).
  { intros h0 Hh0. unfold multiple_hash, horner.
    rewrite <- (valid_length q Hv), <- fold_horner_mod.
    rewrite (Z.mod_small h0) by lia. rewrite <- for_up_fold.
    apply for_up_ext. intros i st _. apply multiple_hash_step. }
  split; [apply Hfold, Hh|]. intros Hbig.
  rewrite (Hfold h Hh), (Hfold 0) by lia.
  rewrite (horner_seed _ h), (horner_seed _ 0), (valid_length q Hv).
  rewrite <- Z.pow_mul_r by lia.
  replace (Z.of_nat (S hash_num) * Z.of_nat DS)
    with (64 + (Z.of_nat (S hash_num * DS) - 64)) by lia.
  rewrite Z.pow_add_r by lia.
  rewrite <- Zplus_mod_idemp_l.
  replace (h * (2 ^ 64 * 2 ^ (Z.of_nat (S hash_num * DS) - 64)))
    with (h * 2 ^ (Z.of_nat (S hash_num * DS) - 64) * 2 ^ 64) by lia.
  rewrite Z.mod_mul by lia. rewrite Z.mul_0_l. reflexivity.
Qed.


(** *** The order [less2] *)

Lemma for_return_Some {R : Type} (body : nat -> option R) a n r :
  for_return (seq a n) body = Some r <->
  exists i, (a <= i < a + n)%nat /\ body i = Some r /\
            forall j, (a <= j < i)%nat -> body j = None.
Proof.
  clear TNucl_pow2. revert a. induction n as [|n IH]; intros a; cbn [seq for_return].
  - split; [discriminate|]. intros (i & Hi & _). lia.
  - destruct (body a) as [x|] eqn:Ha.
    + split.
      * intros [= <-]. exists a. split; [lia|]. split; [exact Ha|]. intros j Hj. lia.
      * intros (i & Hi & Hb & Hbefore). destruct (decide (i = a)) as [->|Hne].
        -- rewrite Ha in Hb. exact Hb.
        -- rewrite (Hbefore a) in Ha by lia. discriminate.
    + rewrite IH. split.
      * intros (i & Hi & Hb & Hbefore). exists i. split; [lia|]. split; [exact Hb|].
        intros j Hj. destruct (decide (j = a)) as [->|]; [exact Ha|apply Hbefore; lia].
      * intros (i & Hi & Hb & Hbefore). exists i.
        assert (i <> a) by (intros ->; rewrite Ha in Hb; discriminate).
        split; [lia|]. split; [exact Hb|]. intros j Hj. apply Hbefore. lia.
Qed.

Lemma less2_spec l r :
  less2 size_ sizeofT l r = true <->
  exists i, (i < size_)%nat /\ l @ i < r @ i /\
            forall j, (j < i)%nat -> l @ j = r @ j.
Proof.
  clear TNucl_pow2. unfold less2. split.
  - destruct (for_return _ _) as [b|] eqn:Hf; [|discriminate]. intros ->.
    apply for_return_Some in Hf as (i & Hi & Hb & Hbefore). exists i.
    split; [lia|]. destruct (Z.eqb_spec (l @ i) (r @ i)); [discriminate|].
    injection Hb as Hlt. apply Z.ltb_lt in Hlt. split; [exact Hlt|].
    intros j Hj. specialize (Hbefore j ltac:(lia)).
    destruct (Z.eqb_spec (l @ j) (r @ j)); [assumption|discriminate].
  - intros (i & Hi & Hlt & Hbefore).
    assert (Hf : for_return (seq 0 size_)
      (fun i => if l @ i =? r @ i then None else Some (l @ i <? r @ i)) = Some true).
    { apply for_return_Some. exists i. split; [lia|]. split.
      - rewrite (proj2 (Z.eqb_neq _ _)) by lia. f_equal. apply Z.ltb_lt, Hlt.
      - intros j Hj. rewrite Hbefore by lia. rewrite Z.eqb_refl. reflexivity. }
    rewrite Hf. reflexivity.
Qed.

(** X13. [less2] says where two sequences first differ: [less2(l, r)] holds
    iff at the first position [i < size_] with [l[i] != r[i]] the symbol
    of [l] is the smaller one. *)
Theorem less2_first_difference l r :
  less2 size_ sizeofT l r = true <->
  exists i, (i < size_)%nat /\ l @ i < r @ i /\
            forall j, (j < i)%nat -> l @ j = r @ j.
Proof. exact (less2_spec l r). Qed.

(** X14. [less2] is a strict order: irreflexive, asymmetric and transitive. *)
Theorem less2_strict_order a b c :
  less2 size_ sizeofT a a = false /\
  (less2 size_ sizeofT a b = true -> less2 size_ sizeofT b a = false) /\
  (less2 size_ sizeofT a b = true -> less2 size_ sizeofT b c = true ->
   less2 size_ sizeofT a c = true).
Proof.
  clear TNucl_pow2. split_and!.
  - destruct (less2 size_ sizeofT a a) eqn:H; [|reflexivity].
    apply less2_spec in H as (i & _ & Hlt & _). lia.
  - intros Hab. destruct (less2 size_ sizeofT b a) eqn:Hba; [|reflexivity].
    apply less2_spec in Hab as (i & Hi & Hlt & Hbefore).
    apply less2_spec in Hba as (j & Hj & Hlt' & Hbefore').
    destruct (Nat.lt_trichotomy i j) as [H|[H|H]].
    + specialize (Hbefore' i H). lia.
    + subst j. lia.
    + specialize (Hbefore j H). lia.
  - intros Hab Hbc.
    apply less2_spec in Hab as (i & Hi & Hlt & Hbefore).
    apply less2_spec in Hbc as (j & Hj & Hlt' & Hbefore').
    apply less2_spec. destruct (Nat.lt_trichotomy i j) as [H|[H|H]].
    + exists i. split; [lia|]. split; [rewrite <- (Hbefore' i H); exact Hlt|].
      intros k Hk. rewrite Hbefore, Hbefore' by lia. reflexivity.
    + subst j. exists i. split; [lia|]. split; [lia|].
      intros k Hk. rewrite Hbefore, Hbefore' by lia. reflexivity.
    + exists j. split; [lia|]. split; [rewrite (Hbefore j H); exact Hlt'|].
      intros k Hk. rewrite Hbefore, Hbefore' by lia. reflexivity.
Qed.

(** X15. [less2] is total up to [==]: two sequences within the class invariant
    are equal iff neither is [less2] than the other. *)
Theorem less2_total l r :
  valid size_ sizeofT l -> valid size_ sizeofT r ->
  padded size_ sizeofT l -> padded size_ sizeofT r ->
  op_eq size_ sizeofT l r = true <->
  less2 size_ sizeofT l r = false /\ less2 size_ sizeofT r l = false.
Proof.
  intros Hl Hr Pl Pr. rewrite op_eq_data by assumption. split.
  - intros Heq. split.
    + destruct (less2 size_ sizeofT l r) eqn:H; [|reflexivity].
      apply less2_spec in H as (i & _ & Hlt & _).
      unfold op_index in Hlt. rewrite Heq in Hlt. lia.
    + destruct (less2 size_ sizeofT r l) eqn:H; [|reflexivity].
      apply less2_spec in H as (i & _ & Hlt & _).
      unfold op_index in Hlt. rewrite Heq in Hlt. lia.
  - intros [Hlr Hrl]. apply data_ext; try assumption.
    rewrite padded_spec in Pl, Pr. intros i Hi.
    destruct (decide (i < size_)%nat) as [Hlt|Hge];
      [|rewrite Pl, Pr by lia; reflexivity].
    induction i as [i IH] using lt_wf_ind.
    destruct (Z.lt_trichotomy (l @ i) (r @ i)) as [H|[H|H]]; [|exact H|].
    + assert (Ht : less2 size_ sizeofT l r = true).
      { apply less2_spec. exists i. split; [lia|]. split; [exact H|].
        intros j Hj. apply IH; lia. }
      rewrite Ht in Hlr. discriminate.
    + assert (Ht : less2 size_ sizeofT r l = true).
      { apply less2_spec. exists i. split; [lia|]. split; [lia|].
        intros j Hj. symmetry. apply IH; lia. }
      rewrite Ht in Hrl. discriminate.
Qed.


(** *** Serialisation: failed streams and consecutive records *)

Lemma take_bytes_of q :
  valid size_ sizeofT q ->
  take (sizeofT * DS) (bytes_of sizeofT q) = bytes_of sizeofT q.
Proof.
  intros Hv. apply take_ge. rewrite length_bytes_of, (valid_length q Hv). lia.
Qed.

Lemma BinWrite_good file q :
  valid size_ sizeofT q -> out_fail file = false ->
  (sizeofT * DS <= out_room file)%nat ->
  BinWrite size_ sizeofT file q =
    (true, mkOstream (out_bytes file ++ bytes_of sizeofT q)
             (out_room file - sizeofT * DS) false).
Proof.
  intros Hv Hgood Hroom. unfold BinWrite, ostream_write.
  rewrite (take_bytes_of q Hv), Hgood, length_bytes_of, (valid_length q Hv).
  rewrite (proj2 (Nat.leb_le _ _)) by lia. reflexivity.
Qed.

Lemma BinRead_good q rest q0 :
  valid size_ sizeofT q ->
  exists r, BinRead size_ sizeofT (mkIstream (bytes_of sizeofT q ++ rest) false false) q0
            = (true, mkIstream rest false false, r) /\
            data_ r = data_ q.
Proof.
  intros Hv.
  assert (Hlen : length (bytes_of sizeofT q) = (sizeofT * DS)%nat)
    by (rewrite length_bytes_of, (valid_length q Hv); reflexivity).
  eexists. split.
  - unfold BinRead, istream_read. cbn [in_eof in_fail in_bytes orb].
    rewrite (proj2 (Nat.leb_le _ _)) by (rewrite length_app; lia).
    rewrite take_app_length', drop_app_length' by lia.
    cbn [in_fail negb]. reflexivity.
  - cbn [data_]. apply cells_of_bytes_of, Hv.
Qed.

(** X16. [BinRead] on a stream that is not good reads nothing: it returns
    false, leaves the bytes of the stream where they are and the sequence
    as it was. *)
Theorem BinRead_on_failed_stream file q :
  valid size_ sizeofT q -> in_eof file || in_fail file = true ->
  exists file' q',
    BinRead size_ sizeofT file q = (false, file', q') /\
    in_bytes file' = in_bytes file /\ data_ q' = data_ q.
Proof.
  intros Hv Hbad. unfold BinRead, istream_read. rewrite Hbad.
  eexists. eexists. split; [reflexivity|]. split; [reflexivity|].
  cbn [data_ app length drop]. rewrite <- (app_nil_r (bytes_of sizeofT q)).
  apply cells_of_bytes_of, Hv.
Qed.

(** X17. Records are self-delimiting: two sequences written one after the
    other take [2 * sizeof(T) * DataSize] bytes, and two reads at the
    same [size_] and [T] give them back in order. *)
Theorem two_records_round_trip q1 q2 file rest a b :
  valid size_ sizeofT q1 -> valid size_ sizeofT q2 ->
  out_fail file = false -> (2 * (sizeofT * DS) <= out_room file)%nat ->
  exists bs file1 file2,
    BinWrite size_ sizeofT file q1 = (true, file1) /\
    BinWrite size_ sizeofT file1 q2 = (true, file2) /\
    out_bytes file2 = out_bytes file ++ bs /\
    length bs = (2 * (sizeofT * DS))%nat /\
    exists ifile r1 r2,
      BinRead size_ sizeofT (mkIstream (bs ++ rest) false false) a = (true, ifile, r1) /\
      BinRead size_ sizeofT ifile b = (true, mkIstream rest false false, r2) /\
      data_ r1 = data_ q1 /\ data_ r2 = data_ q2.
Proof.
  intros H1 H2 Hgood Hroom.
  exists (bytes_of sizeofT q1 ++ bytes_of sizeofT q2). eexists. eexists.
  split; [apply BinWrite_good; [assumption|assumption|lia]|].
  split; [apply BinWrite_good; [assumption|reflexivity|cbn [out_room]; lia]|].
  split; [cbn [out_bytes]; apply eq_sym, app_assoc|].
  split.
  { rewrite length_app, !length_bytes_of, (valid_length q1 H1), (valid_length q2 H2). lia. }
  destruct (BinRead_good q1 (bytes_of sizeofT q2 ++ rest) a H1) as (r1 & Hr1 & Hd1).
  destruct (BinRead_good q2 rest b H2) as (r2 & Hr2 & Hd2).
  eexists. exists r1, r2. rewrite <- app_assoc.
  split; [exact Hr1|]. split; [exact Hr2|]. split; assumption.
Qed.

(** *** Constructors and the symbol writer *)

(** X18. [set(i, c)] writes the code [c] at position [i] and changes no other
    position. *)
Theorem set_then_index q i c :
  valid size_ sizeofT q -> (i < size_)%nat -> 0 <= c < 4 ->
  valid size_ sizeofT (set sizeofT q i c) /\
  set sizeofT q i c @ i = c /\
  forall j, j <> i -> set sizeofT q i c @ j = q @ j.
Proof.
  intros Hv Hi Hc. pose proof size_le_cells as Hle. split; [apply valid_set, Hv|].
  split.
  - rewrite op_index_set, decide_True by (assumption || lia). reflexivity.
  - intros j Hj. rewrite op_index_set, decide_False by (assumption || lia). reflexivity.
Qed.

(** X19. [Seq(T* data_array)] copies the symbols of the buffer whenever it
    writes the cell they are in: every position when [size_] is not a
    multiple of [TNucl], and the positions before the last cell in any
    case; what the storage held before does not show there. *)
Theorem Seq_of_array_copies data_array mem i :
  valid size_ sizeofT (mkSeq mem) ->
  Forall (fun x => 0 <= x < 2 ^ Z.of_nat (TBits sizeofT)) data_array ->
  (i < size_)%nat ->
  (size_ mod W <> 0 \/ i < (DS - 1) * W)%nat ->
  Seq_of_array size_ sizeofT data_array mem @ i = mkSeq data_array @ i.
Proof.
  intros Hmem Hda Hi Hcase.
  destruct (Seq_of_array_spec data_array mem Hmem) as (_ & _ & Hsym).
  { intros k. apply range_of_Forall, Hda. }
  rewrite Hsym by assumption. apply decide_False. lia.
Qed.

(** X20. The constructor from an indexable source aborts when the first
    element of the source is neither a code nor a letter; otherwise, on
    a source of codes or of letters, symbol [i] of the result is the code
    of element [offset + i] for [i < number_to_read] and 0 from there on. *)
Theorem Seq_of_source_symbols (s : nat -> Z) offset number_to_read mem :
  length mem = DS -> (number_to_read <= size_)%nat ->
  (is_dignucl (s O) || is_nucl (s O) = false ->
   Seq_of_source size_ sizeofT s offset number_to_read mem = AssertionFailed) /\
  (is_dignucl (s O) || is_nucl (s O) ->
   (is_dignucl (s O) ->
    forall i, (i < number_to_read)%nat -> is_dignucl (s (offset + i)%nat)) ->
   exists q,
     Seq_of_source size_ sizeofT s offset number_to_read mem = Done q /\
     padded size_ sizeofT q /\
     forall i, (i < size_)%nat ->
       q @ i = if decide (i < number_to_read)%nat
               then (if is_dignucl (s O) then s (offset + i)%nat
                     else dignucl (s (offset + i)%nat))
               else 0).
Proof.
  intros Hmem Hn. split.
  - intros Hbad. unfold Seq_of_source. rewrite Hbad. reflexivity.
  - intros Hfirst Hdig. pose proof size_le_cells as Hle.
    destruct (Seq_of_source_spec s offset number_to_read mem Hmem Hn Hfirst Hdig)
      as (q & Hq & Hv & Hget).
    exists q. split; [exact Hq|]. split.
    + exact (zero_tail_padded _ number_to_read _ Hn Hget).
    + intros i Hi. apply Hget. lia.
Qed.

Lemma read_OutOfBounds s pos : (length s <= pos)%nat -> read s pos = OutOfBounds.
Proof. intros H. unfold read. rewrite lookup_ge_None_2 by lia. reflexivity. Qed.

Lemma for_upM_S {S : Type} n (body : nat -> S -> outcome S) s :
  for_upM (Datatypes.S n) body s = (st ← for_upM n body s; body n st).
Proof. unfold for_upM. rewrite seq_S, fold_left_app. reflexivity. Qed.

(** X21. [Seq(const char* s)] on a buffer of at most [size_] characters,
    all of them letters of {A,C,G,T}, such as a char array filled with
    [size_] letters and no terminator: the constructor reads outside of
    the buffer.  The codec is applied to letters only. *)
Theorem cstr_short_buffer s mem :
  (length s <= size_)%nat ->
  Forall (fun c => is_nucl c) s ->
  Seq_of_cstr size_ sizeofT s mem = OutOfBounds.
Proof.
  intros Hlen _. unfold Seq_of_cstr, init.
  set (body := fun (pos : nat) (st : pack_state) =>
    c ← read s pos; mret (pack_step sizeofT (dignucl c) st)).
  assert (Hloop : forall n, (n <= size_)%nat ->
    (exists st, for_upM n body (mkPack 0 0 0 mem) = Done st /\ (n <= length s)%nat)
    \/ for_upM n body (mkPack 0 0 0 mem) = OutOfBounds).
  { induction n as [|n IH]; intros Hn.
    - left. eexists. split; [reflexivity|lia].
    - rewrite for_upM_S. destruct (IH ltac:(lia)) as [(st & -> & Hle)| ->];
        [|right; reflexivity].
      cbn [mbind outcome_bind]. unfold body.
      destruct (decide (n < length s)%nat).
      + left. rewrite read_Done by lia. eexists. split; [reflexivity|lia].
      + right. rewrite read_OutOfBounds by lia. reflexivity. }
  destruct (Hloop size_ (Nat.le_refl _)) as [(st & -> & Hle)| ->]; [|reflexivity].
  cbn [mbind outcome_bind]. rewrite read_OutOfBounds by lia. reflexivity.
Qed.


(** *** Sliding a window *)

Lemma length_symbols q : length (symbols size_ sizeofT q) = size_.
Proof. unfold symbols. rewrite length_map, length_seq. reflexivity. Qed.

Lemma lookup_symbols q i :
  (i < size_)%nat -> symbols size_ sizeofT q !! i = Some (q @ i).
Proof.
  intros Hi. unfold symbols. rewrite list_lookup_fmap, lookup_seq_lt by lia.
  reflexivity.
Qed.

Lemma symbols_op_shl q c :
  valid size_ sizeofT q -> padded size_ sizeofT q -> (0 < size_)%nat ->
  0 <= c < 4 ->
  symbols size_ sizeofT (op_shl size_ sizeofT q c)
  = drop 1 (symbols size_ sizeofT q) ++ [c].
Proof.
  intros Hv Hp Hpos Hc. pose proof size_le_cells as Hle.
  pose proof (op_shl_symbols q c Hv Hp Hpos Hc) as Hl.
  apply list_eq. intros i. destruct (decide (i < size_)%nat) as [Hi|Hi].
  - rewrite lookup_symbols, Hl by lia.
    destruct (decide (i < size_ - 1)%nat).
    + rewrite lookup_app_l by (rewrite length_drop, length_symbols; lia).
      rewrite lookup_drop, lookup_symbols by lia. reflexivity.
    + rewrite decide_True by lia.
      rewrite lookup_app_r by (rewrite length_drop, length_symbols; lia).
      rewrite length_drop, length_symbols.
      replace (i - (size_ - 1))%nat with O by lia. reflexivity.
  - rewrite !lookup_ge_None_2; [reflexivity| |];
      rewrite ?length_app, ?length_drop, length_symbols; simpl; lia.
Qed.

(** X22. Sliding the window: shifting the codes [cs] into [q] one after the
    other with [operator<<] leaves the last [size_] symbols of the
    symbols of [q] followed by [cs]. *)
Theorem sliding_window cs q :
  valid size_ sizeofT q -> padded size_ sizeofT q -> (0 < size_)%nat ->
  Forall (fun c => 0 <= c < 4) cs ->
  symbols size_ sizeofT (fold_left (op_shl size_ sizeofT) cs q)
  = drop (length cs) (symbols size_ sizeofT q ++ cs).
Proof.
  intros Hv Hp Hpos Hcs. revert q Hv Hp.
  induction Hcs as [|c cs Hc Hcs IH]; intros q Hv Hp.
  - simpl. rewrite app_nil_r. reflexivity.
  - cbn [fold_left length].
    destruct (op_shl_spec q c Hv Hpos Hc) as [Hv' _].
    pose proof (op_shl_padded q c Hv Hp Hpos Hc) as Hp'.
    rewrite (IH _ Hv' Hp'), (symbols_op_shl q c Hv Hp Hpos Hc).
    pose proof (length_symbols q) as Hl.
    destruct (symbols size_ sizeofT q) as [|x xs]; [simpl in Hl; lia|].
    cbn [drop app]. rewrite <- app_assoc. reflexivity.
Qed.

End SeqTheory.

(** * The claims at concrete sizes *)

(** C2. [Seq(T* data_array)] at [size_ = 4] over an 8-bit [T], from the
    buffer that holds "ACGT": the only storage cell is never written and
    keeps whatever [g] the storage held, so with [g = 0] the symbol at
    position 1 is 0 where the buffer has 1. *)
Theorem Seq_of_array_last_cell_unset :
  forall g : Z,
    Seq_of_array 4 1 [228] [g] = mkSeq [g] /\
    op_index 1 (Seq_of_array 4 1 [228] [0]) 1 = 0 /\
    op_index 1 (mkSeq [228]) 1 = 1.
Proof. intros g. split; [reflexivity|]. split; reflexivity. Qed.

(** C1 as stated fails: at [size_ = 5] over an 8-bit [T] the last cell of
    [GetZero()] has the groups 5, 6 and 7 beyond the sequence, and they
    hold 3. *)
Lemma GetZero_padding_nonzero :
  data_ (GetZero 5 1) = [255; 255] /\
  op_index 1 (GetZero 5 1) 5 = 3 /\
  ~ padded 5 1 (GetZero 5 1).
Proof.
  split; [reflexivity|]. split; [reflexivity|]. vm_compute. intros H. exact H.
Qed.




(** ** Witnesses *)

Lemma padding_invariant_witness :
  valid 5 1 (op_not 5 1 (op_shl 5 1 (Seq_default 5 1) 2)) /\
  padded 5 1 (op_not 5 1 (op_shl 5 1 (Seq_default 5 1) 2)).
Proof.
  apply (padding_invariant 5 1 eq_refl).
  apply by_not, by_shl; [apply by_default|exact I].
Defined.


Lemma string_round_trip_witness :
  exists q, Seq_of_cstr 5 1 (c_str "ACGTC") [0; 0] = Done q /\
            str 5 1 q = [chA; chC; chG; chT; chC].
Proof.
  apply (string_round_trip 5 1 eq_refl [chA; chC; chG; chT; chC] [0; 0]);
    [reflexivity | repeat constructor | reflexivity].
Defined.

Lemma reverse_complement_witness :
  op_eq 5 1 (op_not 5 1 (op_not 5 1 (mkSeq [228; 1]))) (mkSeq [228; 1]) = true /\
  forall i, (i < 5)%nat ->
    op_index 1 (op_not 5 1 (mkSeq [228; 1])) i
    = complement (op_index 1 (mkSeq [228; 1]) (5 - 1 - i)).
Proof.
  apply (reverse_complement 5 1 eq_refl (mkSeq [228; 1])). vm_compute. exact I.
Defined.


Lemma serialization_round_trip_witness :
  exists bs file',
    BinWrite 5 8 (mkOstream [] 16 false) (mkSeq [996]) = (true, file') /\
    out_bytes file' = [] ++ bs /\
    length bs = (8 * DataSize 5 8)%nat /\
    exists q',
      BinRead 5 8 (mkIstream (bs ++ [7]) false false) (mkSeq [0])
        = (true, mkIstream [7] false false, q') /\
      data_ q' = [996] /\
      op_eq 5 8 q' (mkSeq [996]) = true.
Proof.
  apply (serialization_round_trip 5 8 eq_refl (mkSeq [996]) (mkOstream [] 16 false)
           [7] (mkSeq [0]));
    [vm_compute; exact I | reflexivity | vm_compute; lia].
Defined.

Lemma serialization_failure_witness :
  ((BinRead 5 8 (mkIstream [228; 3] false false) (mkSeq [996])).1.1 = false <->
     in_eof (mkIstream [228; 3] false false)
     || in_fail (mkIstream [228; 3] false false) = true
     \/ (length (in_bytes (mkIstream [228%Z; 3%Z] false false))
         < 8 * DataSize 5 8)%nat) /\
  ((BinWrite 5 8 (mkOstream [] 4 false) (mkSeq [996])).1 = false <->
     out_fail (mkOstream [] 4 false) = true
     \/ (out_room (mkOstream [] 4 false) < 8 * DataSize 5 8)%nat).
Proof.
  apply (serialization_failure 5 8 eq_refl (mkIstream [228; 3] false false)
           (mkOstream [] 4 false) (mkSeq [996])).
  vm_compute. exact I.
Defined.


(** * Sequences of neighbouring sizes *)

Section SeqGrow.

Context (size_ sizeofT : nat).
Hypothesis TNucl_pow2 : TNucl sizeofT = (2 ^ TNuclBits sizeofT)%nat.

Local Abbreviation W := (TNucl sizeofT).
Local Abbreviation DS := (DataSize size_ sizeofT).
Local Abbreviation DS' := (DataSize (size_ + 1) sizeofT).
Local Notation "q @ i" := (op_index sizeofT q i) (at level 20).

Lemma DataSize_succ : DS' = S (size_ / W).
Proof.
  pose proof (TNucl_pos sizeofT TNucl_pow2) as HW.
  rewrite (DataSize_div _ _ TNucl_pow2).
  replace (size_ + 1 + W - 1)%nat with (size_ + 1 * W)%nat by lia.
  rewrite Nat.div_add by lia. lia.
Qed.

(** What [pushBack] leaves in every 2-bit group of the longer storage. *)
Lemma pushBack_spec q c :
  valid size_ sizeofT q -> padded size_ sizeofT q -> 0 <= c < 4 ->
  valid (size_ + 1) sizeofT (pushBack size_ sizeofT q c) /\
  forall i, (i < DS' * W)%nat ->
    pushBack size_ sizeofT q c @ i =
      if decide (i < size_)%nat then q @ i
      else if decide (i = size_)%nat then c else 0.
Proof.
  intros Hv Hp Hc.
  pose proof (TNucl_pos sizeofT TNucl_pow2) as HW.
  destruct (remain_split size_ sizeofT TNucl_pow2) as [[Hsz Hm] HDS].
  pose proof DataSize_succ as HDS'.
  pose proof (valid_length _ _ _ Hv) as Hlen.
  rewrite (padded_spec _ _ TNucl_pow2) in Hp.
  unfold pushBack.
  rewrite (is_nucl_code sizeofT TNucl_pow2 c Hc), (toT_small sizeofT TNucl_pow2 c) by lia.
  rewrite (cell_offset sizeofT TNucl_pow2), (shift_amount sizeofT TNucl_pow2).
  unfold Seq_default. cbn [data_]. rewrite (toT_small sizeofT TNucl_pow2 0) by lia.
  destruct (copy_cells sizeofT TNucl_pow2 (data_ q) (replicate DS' 0) DS) as [Hl Hcopy].
  cbv zeta in Hl, Hcopy. rewrite length_replicate in Hl, Hcopy.
  set (d := for_up DS _ (replicate DS' 0)) in *.
  rewrite HDS'. replace (S (size_ / W) - 1)%nat with (size_ / W)%nat by lia.
  assert (Hd : forall k, (k < DS')%nat ->
    d !!! k = if decide (k < DS)%nat then data_ q !!! k else 0).
  { intros k Hk. rewrite Hcopy. destruct (decide (k < DS)%nat).
    - rewrite decide_True by lia. reflexivity.
    - rewrite decide_False by lia. apply lookup_total_replicate_2. lia. }
  split.
  - apply (valid_intro_lt _ _ TNucl_pow2); cbn [data_].
    + rewrite length_insert. exact Hl.
    + intros k Hk. rewrite list_lookup_total_insert.
      destruct (decide (size_ / W = k /\ size_ / W < length d)%nat);
        [apply (toT_range sizeofT TNucl_pow2)|].
      rewrite Hd by assumption. destruct (decide (k < DS)%nat);
        [apply (valid_cell size_ sizeofT TNucl_pow2 q k Hv)|].
      split; [lia|]. apply Z.pow_pos_nonneg; lia.
  - intros i Hi. destruct (pos_split sizeofT TNucl_pow2 i) as (k & j & -> & Hj).
    assert (Hk : (k < DS')%nat) by nia.
    rewrite !(op_index_grp sizeofT TNucl_pow2) by lia. cbn [data_].
    rewrite list_lookup_total_insert by lia.
    destruct (decide (size_ / W = k)%nat) as [<-|Hne].
    + rewrite (decide_True (P := (_ /\ _))) by lia.
      rewrite (grp_toT sizeofT TNucl_pow2), grp_lor, grp_shiftl_code by lia.
      rewrite Hd by lia.
      destruct (decide (size_ mod W = 0)%nat) as [H0|H0].
      * rewrite (decide_False (P := (size_ / W < DS)%nat)) by lia.
        rewrite grp_0, Z.lor_0_l.
        repeat case_decide; try reflexivity; lia.
      * rewrite (decide_True (P := (size_ / W < DS)%nat)) by lia.
        rewrite <- (op_index_grp sizeofT TNucl_pow2) by lia.
        destruct (decide (j = size_ mod W)%nat) as [->|Hj'].
        -- rewrite Hp by lia. rewrite (decide_False (P := (_ < size_)%nat)) by lia.
           rewrite decide_True by lia. reflexivity.
        -- rewrite Z.lor_0_r. destruct (decide (size_ / W * W + j < size_)%nat);
             [reflexivity|].
           rewrite decide_False by lia. apply Hp. lia.
    + rewrite (decide_False (P := (_ /\ _))) by lia.
      assert (k < size_ / W)%nat by lia.
      rewrite Hd by lia. rewrite decide_True by (case_decide; lia).
      rewrite decide_True by nia. reflexivity.
Qed.

Lemma is_dignucl_nucl c : is_dignucl (nucl c) = false.
Proof. unfold nucl. repeat case_match; reflexivity. Qed.

(** X23. [pushBack(c)] appends: the result, a sequence of [size_ + 1]
    symbols within the class invariant, has the symbols of [q] at the
    positions below [size_] and [c] at position [size_]. *)
Theorem pushBack_appends q c :
  valid size_ sizeofT q -> padded size_ sizeofT q -> 0 <= c < 4 ->
  valid (size_ + 1) sizeofT (pushBack size_ sizeofT q c) /\
  padded (size_ + 1) sizeofT (pushBack size_ sizeofT q c) /\
  (forall i, (i < size_)%nat -> pushBack size_ sizeofT q c @ i = q @ i) /\
  pushBack size_ sizeofT q c @ size_ = c.
Proof.
  intros Hv Hp Hc. destruct (pushBack_spec q c Hv Hp Hc) as [Hv' Hsym].
  pose proof (size_le_cells (size_ + 1) sizeofT TNucl_pow2) as Hle.
  split_and!.
  - exact Hv'.
  - apply (padded_spec _ _ TNucl_pow2). intros i Hi.
    rewrite Hsym, !decide_False by lia. reflexivity.
  - intros i Hi. rewrite Hsym, decide_True by lia. reflexivity.
  - rewrite Hsym, decide_False, decide_True by lia. reflexivity.
Qed.

(** What [pushFront] leaves in every 2-bit group of the longer storage. *)
Lemma pushFront_spec q c mem :
  0 <= c < 4 -> length mem = DS' ->
  exists r, pushFront size_ sizeofT q c mem = Done r /\
    valid (size_ + 1) sizeofT r /\
    forall i, (i < DS' * W)%nat ->
      r @ i = if decide (i < size_ + 1)%nat
              then (if decide (i = O) then c else q @ (i - 1)) else 0.
Proof.
  intros Hc Hmem. unfold pushFront.
  rewrite (is_nucl_code sizeofT TNucl_pow2 c Hc), (is_dignucl_code sizeofT TNucl_pow2 c Hc).
  cbn [VERIFY mbind outcome_bind].
  destruct (str_spec size_ sizeofT TNucl_pow2 q) as [Hl Hs].
  set (s := fun i : nat => (nucl c :: str size_ sizeofT q) !!! i).
  assert (Hs0 : s O = nucl c) by reflexivity.
  destruct (Seq_of_source_spec (size_ + 1) sizeofT TNucl_pow2 s O (size_ + 1) mem
              Hmem (Nat.le_refl _)) as (r & Hr & Hv & Hget).
  - rewrite Hs0, is_dignucl_nucl. apply is_nucl_nucl.
  - rewrite Hs0, is_dignucl_nucl. intros [].
  - exists r. split; [exact Hr|]. split; [exact Hv|].
    intros i Hi. rewrite Hget, Hs0, is_dignucl_nucl by assumption.
    destruct (decide (i < size_ + 1)%nat); [|reflexivity].
    destruct i as [|i].
    + rewrite decide_True by reflexivity. cbn [Nat.add]. rewrite Hs0.
      apply (dignucl_nucl sizeofT TNucl_pow2), Hc.
    + rewrite decide_False by lia. cbn [Nat.add]. unfold s.
      rewrite (list_lookup_total_correct _ (S i) (nucl (q @ i)))
        by (cbn [lookup list_lookup]; apply Hs; lia).
      replace (S i - 1)%nat with i by lia.
      apply (dignucl_nucl sizeofT TNucl_pow2), op_index_range.
Qed.

(** X24. [pushFront(c)] prepends a code: the result, a sequence of
    [size_ + 1] symbols within the class invariant, has [c] at position
    0 and symbol [i] of [q] at position [i + 1]; a [c] that is neither a
    letter nor a code aborts. *)
Theorem pushFront_prepends q c mem :
  length mem = DS' ->
  (0 <= c < 4 ->
   exists r, pushFront size_ sizeofT q c mem = Done r /\
     valid (size_ + 1) sizeofT r /\ padded (size_ + 1) sizeofT r /\
     r @ O = c /\
     forall i, (i < size_)%nat -> r @ (S i) = q @ i) /\
  (is_nucl c = false -> is_dignucl c = false ->
   pushFront size_ sizeofT q c mem = AssertionFailed).
Proof.
  intros Hmem. split.
  - intros Hc. destruct (pushFront_spec q c mem Hc Hmem) as (r & Hr & Hv & Hsym).
    pose proof (size_le_cells (size_ + 1) sizeofT TNucl_pow2) as Hle.
    exists r. split_and!; try assumption.
    + apply (padded_spec _ _ TNucl_pow2). intros i Hi.
      rewrite Hsym, decide_False by lia. reflexivity.
    + rewrite Hsym, !decide_True by lia. reflexivity.
    + intros i Hi. rewrite Hsym, decide_True, decide_False by lia.
      f_equal. lia.
  - intros Hn Hd. unfold pushFront. rewrite Hn, Hd. reflexivity.
Qed.

End SeqGrow.

(** * Windows of a sequence *)

Section SeqWindow.

Context (size_ sizeofT size2_ sizeofT2 : nat).
Hypothesis TNucl2_pow2 : TNucl sizeofT2 = (2 ^ TNuclBits sizeofT2)%nat.

(** The constructor from an indexable source on a sequence: a window of
    [size2_] symbols from [offset] on, repacked into cells of [T2]. *)
Lemma window_spec q offset mem :
  length mem = DataSize size2_ sizeofT2 ->
  exists r,
    Seq_of_source size2_ sizeofT2 (fun i => op_index sizeofT q i) offset size2_ mem
      = Done r /\
    valid size2_ sizeofT2 r /\
    forall i, (i < DataSize size2_ sizeofT2 * TNucl sizeofT2)%nat ->
      op_index sizeofT2 r i =
        if decide (i < size2_)%nat then op_index sizeofT q (offset + i) else 0.
Proof.
  intros Hmem.
  pose proof (is_dignucl_code sizeofT2 TNucl2_pow2 _ (op_index_range sizeofT q O)) as H0.
  destruct (Seq_of_source_spec size2_ sizeofT2 TNucl2_pow2
              (fun i => op_index sizeofT q i) offset size2_ mem
              Hmem (Nat.le_refl _)) as (r & Hr & Hv & Hget).
  - rewrite H0. exact I.
  - intros _ i _. rewrite (is_dignucl_code sizeofT2 TNucl2_pow2); [exact I|].
    apply op_index_range.
  - exists r. split; [exact Hr|]. split; [exact Hv|].
    intros i Hi. rewrite Hget, H0 by assumption. reflexivity.
Qed.

Lemma end_spec q mem :
  (size2_ <= size_)%nat -> length mem = DataSize size2_ sizeofT2 ->
  exists r, end_ size_ sizeofT size2_ sizeofT2 q mem = Done r /\
    valid size2_ sizeofT2 r /\
    forall i, (i < DataSize size2_ sizeofT2 * TNucl sizeofT2)%nat ->
      op_index sizeofT2 r i =
        if decide (i < size2_)%nat then op_index sizeofT q (size_ - size2_ + i) else 0.
Proof.
  intros Hle Hmem. unfold end_.
  rewrite (proj2 (Nat.leb_le _ _) Hle). cbn [VERIFY mbind outcome_bind].
  apply window_spec, Hmem.
Qed.

(** X25. [end<size2_, T2>()] is the suffix of [size2_] symbols, repacked into
    cells of [T2] within the class invariant; asking for more symbols
    than the sequence has aborts. *)
Theorem end_is_suffix q mem :
  length mem = DataSize size2_ sizeofT2 ->
  ((size2_ <= size_)%nat ->
   exists r, end_ size_ sizeofT size2_ sizeofT2 q mem = Done r /\
     valid size2_ sizeofT2 r /\ padded size2_ sizeofT2 r /\
     forall i, (i < size2_)%nat ->
       op_index sizeofT2 r i = op_index sizeofT q (size_ - size2_ + i)) /\
  ((size_ < size2_)%nat ->
   end_ size_ sizeofT size2_ sizeofT2 q mem = AssertionFailed).
Proof.
  intros Hmem. split.
  - intros Hle. destruct (end_spec q mem Hle Hmem) as (r & Hr & Hv & Hsym).
    pose proof (size_le_cells size2_ sizeofT2 TNucl2_pow2) as Hcells.
    exists r. split_and!; try assumption.
    + apply (padded_spec _ _ TNucl2_pow2). intros i Hi.
      rewrite Hsym, decide_False by lia. reflexivity.
    + intros i Hi. rewrite Hsym, decide_True by lia. reflexivity.
  - intros Hlt. unfold end_. rewrite (proj2 (Nat.leb_gt _ _) Hlt). reflexivity.
Qed.

(** X26. [start<size2_, T2>()] is the prefix of [size2_] symbols; a proper
    prefix is repacked into cells of [T2] within the class invariant;
    asking for more symbols than the sequence has aborts. *)
Theorem start_is_prefix q mem :
  length mem = DataSize size2_ sizeofT2 ->
  ((size2_ <= size_)%nat ->
   exists r, start size_ sizeofT size2_ sizeofT2 q mem = Done r /\
     (forall i, (i < size2_)%nat -> op_index sizeofT2 r i = op_index sizeofT q i) /\
     ((size2_ < size_)%nat -> valid size2_ sizeofT2 r /\ padded size2_ sizeofT2 r)) /\
  ((size_ < size2_)%nat ->
   start size_ sizeofT size2_ sizeofT2 q mem = AssertionFailed).
Proof.
  intros Hmem. split.
  - intros Hle. unfold start.
    rewrite (proj2 (Nat.leb_le _ _) Hle). cbn [VERIFY mbind outcome_bind].
    destruct ((size2_ =? size_)%nat && (sizeofT2 =? sizeofT)%nat) eqn:Hsame.
    + apply andb_true_iff in Hsame as [Hs Ht].
      apply Nat.eqb_eq in Hs, Ht. subst. exists q.
      split; [reflexivity|]. split; [reflexivity|]. lia.
    + destruct (window_spec q O mem Hmem) as (r & Hr & Hv & Hsym).
      pose proof (size_le_cells size2_ sizeofT2 TNucl2_pow2) as Hcells.
      exists r. split; [exact Hr|]. split.
      * intros i Hi. rewrite Hsym, decide_True by lia. reflexivity.
      * intros _. split; [exact Hv|].
        apply (padded_spec _ _ TNucl2_pow2). intros i Hi.
        rewrite Hsym, decide_False by lia. reflexivity.
  - intros Hlt. unfold start. rewrite (proj2 (Nat.leb_gt _ _) Hlt). reflexivity.
Qed.

End SeqWindow.

(** * Growing and cutting back *)

Section SeqGrowCut.

Context (size_ sizeofT : nat).
Hypothesis TNucl_pow2 : TNucl sizeofT = (2 ^ TNuclBits sizeofT)%nat.

Local Abbreviation W := (TNucl sizeofT).
Local Abbreviation DS := (DataSize size_ sizeofT).
Local Notation "q @ i" := (op_index sizeofT q i) (at level 20).

(** X27. Appending a symbol and keeping the last [size_] symbols is the shift
    left: [q.pushBack(c).end<size_>() == (q << c)]. *)
Theorem pushBack_then_end q c mem :
  valid size_ sizeofT q -> padded size_ sizeofT q -> (0 < size_)%nat ->
  0 <= c < 4 -> length mem = DS ->
  exists r,
    end_ (size_ + 1) sizeofT size_ sizeofT (pushBack size_ sizeofT q c) mem = Done r /\
    op_eq size_ sizeofT r (op_shl size_ sizeofT q c) = true.
Proof.
  intros Hv Hp Hpos Hc Hmem.
  destruct (pushBack_spec size_ sizeofT TNucl_pow2 q c Hv Hp Hc) as [_ Hpb].
  destruct (end_spec (size_ + 1) sizeofT size_ sizeofT TNucl_pow2
              (pushBack size_ sizeofT q c) mem ltac:(lia) Hmem) as (r & Hr & Hvr & Hsym).
  destruct (op_shl_spec size_ sizeofT TNucl_pow2 q c Hv Hpos Hc) as [Hvl _].
  pose proof (op_shl_symbols size_ sizeofT TNucl_pow2 q c Hv Hp Hpos Hc) as Hl.
  pose proof (size_le_cells (size_ + 1) sizeofT TNucl_pow2) as Hle.
  exists r. split; [exact Hr|].
  apply (op_eq_data size_ sizeofT TNucl_pow2); try assumption.
  apply (data_ext size_ sizeofT TNucl_pow2); try assumption.
  intros i Hi. rewrite Hsym, Hl by assumption.
  destruct (decide (i < size_)%nat).
  - rewrite Hpb by lia. replace (size_ + 1 - size_ + i)%nat with (S i) by lia.
    repeat case_decide; try reflexivity; lia.
  - rewrite !decide_False by lia. reflexivity.
Qed.

(** X28. Prepending a symbol and keeping the first [size_] symbols is the
    shift right: [q.pushFront(c).start<size_>() == (q >> c)]. *)
Theorem pushFront_then_start q c mem1 mem2 :
  valid size_ sizeofT q -> 0 <= c < 4 ->
  length mem1 = DataSize (size_ + 1) sizeofT -> length mem2 = DS ->
  exists r1 r2 r3,
    pushFront size_ sizeofT q c mem1 = Done r1 /\
    start (size_ + 1) sizeofT size_ sizeofT r1 mem2 = Done r2 /\
    op_shr size_ sizeofT q c = Done r3 /\
    op_eq size_ sizeofT r2 r3 = true.
Proof.
  intros Hv Hc Hmem1 Hmem2.
  destruct (pushFront_spec size_ sizeofT TNucl_pow2 q c mem1 Hc Hmem1)
    as (r1 & Hr1 & Hv1 & Hpf).
  destruct (window_spec sizeofT size_ sizeofT TNucl_pow2 r1 O mem2 Hmem2)
    as (r2 & Hr2 & Hv2 & Hsym).
  destruct (op_shr_spec size_ sizeofT TNucl_pow2 q c Hv Hc)
    as (r3 & Hr3 & Hv3 & _ & Hshr).
  pose proof (size_le_cells (size_ + 1) sizeofT TNucl_pow2) as Hle.
  exists r1, r2, r3. split; [exact Hr1|]. split.
  - unfold start. rewrite (proj2 (Nat.leb_le _ _)) by lia.
    cbn [VERIFY mbind outcome_bind].
    rewrite (proj2 (Nat.eqb_neq size_ (size_ + 1))) by lia. exact Hr2.
  - split; [exact Hr3|].
    apply (op_eq_data size_ sizeofT TNucl_pow2); try assumption.
    apply (data_ext size_ sizeofT TNucl_pow2); try assumption.
    intros i Hi. rewrite Hsym, Hshr by assumption.
    destruct (decide (i < size_)%nat); [|reflexivity].
    cbn [Nat.add]. rewrite Hpf, decide_True by lia. reflexivity.
Qed.

End SeqGrowCut.

(** * [VectorStream] *)

Section VectorStreamTheory.

Context {T : Type}.

Lemma extract_n_spec (data : list T) p c n :
  (p <= length data)%nat ->
  VectorStream.extract_n n (VectorStream.mk data p c) =
    if decide (p + n <= length data)%nat
    then Done (take n (drop p data), VectorStream.mk data (p + n) c)
    else OutOfBounds.
Proof.
  revert p. induction n as [|n IH]; intros p Hp.
  - rewrite decide_True by lia. rewrite Nat.add_0_r. reflexivity.
  - cbn [VectorStream.extract_n]. unfold VectorStream.extract. cbn beta iota delta [VectorStream.data_ VectorStream.pos_ VectorStream.closed_].
    destruct (data !! p) as [x|] eqn:Hx.
    + pose proof (lookup_lt_Some _ _ _ Hx) as Hlt.
      cbn [mbind outcome_bind fst snd]. rewrite IH by lia.
      destruct (decide (S p + n <= length data)%nat).
      * rewrite decide_True by lia. cbn [mbind outcome_bind mret outcome_ret fst snd].
        rewrite (drop_S _ _ _ Hx). cbn [take]. do 3 f_equal. lia.
      * rewrite decide_False by lia. reflexivity.
    + apply lookup_ge_None_1 in Hx. rewrite decide_False by lia. reflexivity.
Qed.

(** X29. [n] extractions from a fresh [VectorStream(data)] deliver the first
    [n] elements of [data] in order, and [eof()] then holds iff all of
    them were delivered; one extraction more than [data] has elements
    reads outside of the vector, for [operator>>] does not test [eof()]. *)
Theorem VectorStream_delivers (data : list T) n :
  ((n <= length data)%nat ->
   VectorStream.extract_n n (VectorStream.make data)
     = Done (take n data, VectorStream.mk data n false) /\
   (VectorStream.eof (VectorStream.mk data n false) = true <-> n = length data)) /\
  ((length data < n)%nat ->
   VectorStream.extract_n n (VectorStream.make data) = OutOfBounds).
Proof.
  unfold VectorStream.make. split.
  - intros Hn. rewrite extract_n_spec, decide_True by lia. split; [reflexivity|].
    unfold VectorStream.eof. cbn beta iota delta [VectorStream.pos_ VectorStream.data_].
    apply Nat.eqb_eq.
  - intros Hn. rewrite extract_n_spec, decide_False by lia. reflexivity.
Qed.

(** X30. [reset()] rewinds to the first element whatever was extracted, and
    [close()] only sets the flag that [is_open()] reports: a closed
    stream still delivers its elements. *)
Theorem VectorStream_reset_and_close (s : @VectorStream.t T) n :
  (n <= length (VectorStream.data_ s))%nat ->
  exists s' : @VectorStream.t T,
    VectorStream.extract_n n (VectorStream.reset (VectorStream.close s))
      = Done (take n (VectorStream.data_ s), s') /\
    VectorStream.is_open s' = false /\
    VectorStream.pos_ s' = n.
Proof.
  intros Hn. destruct s as [data p c].
  unfold VectorStream.reset, VectorStream.close.
  cbn beta iota delta [VectorStream.data_ VectorStream.pos_ VectorStream.closed_] in *.
  rewrite extract_n_spec, decide_True by lia.
  eexists. split; [reflexivity|]. split; reflexivity.
Qed.

End VectorStreamTheory.

(** * The further properties at concrete sizes

    [mkSeq [228; 1]] is "ACGTC" in two 8-bit cells, [mkSeq [27; 2]] is
    "TGCAG", and [mkSeq [9768840275593499108; 2]] is a 33-symbol sequence in
    two 64-bit cells. *)

Lemma shift_right_consistency_witness :
  exists r, op_shr 33 8 (mkSeq [9768840275593499108; 2]) 2 = Done r /\
    first 8 r = 2 /\
    (forall i, (0 < i < 33)%nat ->
       op_index 8 r i = op_index 8 (mkSeq [9768840275593499108; 2]) (i - 1)) /\
    padded 33 8 r.
Proof.
  apply (shift_right_consistency 33 8 eq_refl (mkSeq [9768840275593499108; 2]) 2);
    [vm_compute; exact I | lia | lia].
Defined.

Lemma shift_left_then_right_witness :
  exists r, op_shr 5 1 (op_shl 5 1 (mkSeq [228; 1]) 2) (first 1 (mkSeq [228; 1]))
            = Done r /\
            op_eq 5 1 r (mkSeq [228; 1]) = true.
Proof.
  apply (shift_left_then_right 5 1 eq_refl (mkSeq [228; 1]) 2);
    [vm_compute; exact I | vm_compute; exact I | lia | lia].
Defined.

Lemma shift_right_then_left_witness :
  exists r, op_shr 5 1 (mkSeq [228; 1]) 3 = Done r /\
            op_eq 5 1 (op_shl 5 1 r (last 5 1 (mkSeq [228; 1]))) (mkSeq [228; 1])
            = true.
Proof.
  apply (shift_right_then_left 5 1 eq_refl (mkSeq [228; 1]) 3);
    [vm_compute; exact I | vm_compute; exact I | lia | lia].
Defined.

Lemma reverse_complement_of_shift_witness :
  (exists r, op_shr 5 1 (op_not 5 1 (mkSeq [228; 1])) (complement 2) = Done r /\
             op_eq 5 1 (op_not 5 1 (op_shl 5 1 (mkSeq [228; 1]) 2)) r = true) /\
  (exists r, op_shr 5 1 (mkSeq [228; 1]) 2 = Done r /\
             op_eq 5 1 (op_not 5 1 r)
               (op_shl 5 1 (op_not 5 1 (mkSeq [228; 1])) (complement 2)) = true).
Proof.
  apply (reverse_complement_of_shift 5 1 eq_refl (mkSeq [228; 1]) 2);
    [vm_compute; exact I | vm_compute; exact I | lia | lia].
Defined.

Lemma default_is_all_A_witness :
  str 33 8 (Seq_default 33 8) = replicate 33 chA.
Proof.
  apply (default_is_all_A 33 8 eq_refl).
Defined.


Lemma GetZero_is_all_T_witness :
  str 33 8 (GetZero 33 8) = replicate 33 chT.
Proof.
  apply (GetZero_is_all_T 33 8 eq_refl).
Defined.

Lemma GetZero_distinct_or_all_T_witness :
  op_eq 5 1 (GetZero 5 1) (mkSeq [255; 3]) = false /\
  exists r, Seq_of_cstr 4 1 (replicate 4 chT ++ [0]) [0] = Done r /\
            op_eq 4 1 (GetZero 4 1) r = true.
Proof.
  split.
  - apply (proj1 (GetZero_distinct_or_all_T 5 1 eq_refl));
      [vm_compute; lia | vm_compute; exact I | vm_compute; exact I].
  - apply (proj2 (GetZero_distinct_or_all_T 4 1 eq_refl)); reflexivity.
Defined.

Lemma GetHash_is_polynomial_witness :
  GetHash 5 1 (mkSeq [228; 1]) = horner 31 239 [228; 1] mod 2 ^ 64.
Proof.
  apply (GetHash_is_polynomial 5 1 eq_refl (mkSeq [228; 1])).
  vm_compute; exact I.
Defined.

Lemma GetHash_one_cell_injective_witness :
  op_eq 32 8 (mkSeq [9768840275593499108]) (mkSeq [9768840275593499108]) = true.
Proof.
  apply (GetHash_one_cell_injective 32 8 eq_refl
           (mkSeq [9768840275593499108]) (mkSeq [9768840275593499108]));
    [vm_compute; exact I | vm_compute; exact I | reflexivity | lia | reflexivity].
Defined.

Lemma GetHash_two_cell_collision_witness :
  GetHash 5 1 (mkSeq [228; 31]) = GetHash 5 1 (mkSeq [228 + 1; 31 - 31]) /\
  op_eq 5 1 (mkSeq [228; 31]) (mkSeq [228 + 1; 31 - 31]) = false.
Proof.
  apply (GetHash_two_cell_collision 5 1 eq_refl 228 31);
    [reflexivity | lia | vm_compute; reflexivity | vm_compute; split; [discriminate | reflexivity]].
Defined.

Lemma multiple_hash_is_polynomial_witness :
  multiple_hash 5 1 (mkSeq [228; 1]) 31 7
  = horner (2 ^ Z.of_nat 32) 7 [228; 1] mod 2 ^ 64 /\
  multiple_hash 5 1 (mkSeq [228; 1]) 31 7 = multiple_hash 5 1 (mkSeq [228; 1]) 31 0.
Proof.
  destruct (multiple_hash_is_polynomial 5 1 eq_refl (mkSeq [228; 1]) 31 7)
    as [H1 H2]; [vm_compute; exact I | lia | lia |].
  split; [exact H1 | apply H2; vm_compute; lia].
Defined.

Lemma less2_first_difference_witness :
  less2 5 1 (mkSeq [228; 1]) (mkSeq [236; 1]) = true.
Proof.
  apply (less2_first_difference 5 1 (mkSeq [228; 1]) (mkSeq [236; 1])).
  exists 1%nat. split; [lia|]. split; [vm_compute; reflexivity|].
  intros j Hj. assert (j = 0%nat) as -> by lia. reflexivity.
Defined.

Lemma less2_strict_order_witness :
  less2 5 1 (mkSeq [228; 1]) (mkSeq [228; 3]) = true.
Proof.
  apply (proj2 (proj2 (less2_strict_order 5 1
           (mkSeq [228; 1]) (mkSeq [228; 2]) (mkSeq [228; 3]))));
    reflexivity.
Defined.

Lemma less2_total_witness :
  op_eq 5 1 (mkSeq [228; 1]) (mkSeq [228; 1]) = true <->
  less2 5 1 (mkSeq [228; 1]) (mkSeq [228; 1]) = false /\
  less2 5 1 (mkSeq [228; 1]) (mkSeq [228; 1]) = false.
Proof.
  apply (less2_total 5 1 eq_refl (mkSeq [228; 1]) (mkSeq [228; 1]));
    vm_compute; exact I.
Defined.

Lemma BinRead_on_failed_stream_witness :
  exists file' q',
    BinRead 5 1 (mkIstream [7; 8; 9] true false) (mkSeq [228; 1])
    = (false, file', q') /\
    in_bytes file' = [7; 8; 9] /\ data_ q' = [228; 1].
Proof.
  apply (BinRead_on_failed_stream 5 1 eq_refl (mkIstream [7; 8; 9] true false)
           (mkSeq [228; 1]));
    [vm_compute; exact I | reflexivity].
Defined.

Lemma two_records_round_trip_witness :
  exists bs file1 file2,
    BinWrite 5 1 (mkOstream [9] 4 false) (mkSeq [228; 1]) = (true, file1) /\
    BinWrite 5 1 file1 (mkSeq [27; 2]) = (true, file2) /\
    out_bytes file2 = [9] ++ bs /\
    length bs = (2 * (1 * DataSize 5 1))%nat /\
    exists ifile r1 r2,
      BinRead 5 1 (mkIstream (bs ++ [7]) false false) (mkSeq [0; 0])
      = (true, ifile, r1) /\
      BinRead 5 1 ifile (mkSeq [0; 0]) = (true, mkIstream [7] false false, r2) /\
      data_ r1 = [228; 1] /\ data_ r2 = [27; 2].
Proof.
  apply (two_records_round_trip 5 1 eq_refl (mkSeq [228; 1]) (mkSeq [27; 2])
           (mkOstream [9] 4 false) [7] (mkSeq [0; 0]) (mkSeq [0; 0]));
    [vm_compute; exact I | vm_compute; exact I | reflexivity | vm_compute; lia].
Defined.

Lemma set_then_index_witness :
  valid 5 1 (set 1 (mkSeq [228; 1]) 4 3) /\
  op_index 1 (set 1 (mkSeq [228; 1]) 4 3) 4 = 3 /\
  forall j, j <> 4%nat ->
    op_index 1 (set 1 (mkSeq [228; 1]) 4 3) j = op_index 1 (mkSeq [228; 1]) j.
Proof.
  apply (set_then_index 5 1 eq_refl (mkSeq [228; 1]) 4 3);
    [vm_compute; exact I | lia | lia].
Defined.

Lemma Seq_of_array_copies_witness :
  op_index 1 (Seq_of_array 5 1 [228; 1] [77; 88]) 4
  = op_index 1 (mkSeq [228; 1]) 4.
Proof.
  apply (Seq_of_array_copies 5 1 eq_refl [228; 1] [77; 88] 4);
    [vm_compute; exact I
    | repeat constructor; vm_compute; discriminate
    | lia
    | left; vm_compute; lia].
Defined.

Lemma Seq_of_source_symbols_witness :
  exists q,
    Seq_of_source 5 1 (fun i => if Nat.even i then chA else chT) 1 3 [77; 88]
    = Done q /\
    padded 5 1 q /\
    forall i, (i < 5)%nat ->
      op_index 1 q i
      = if decide (i < 3)%nat
        then if is_dignucl (if Nat.even 0 then chA else chT)
             then if Nat.even (1 + i) then chA else chT
             else dignucl (if Nat.even (1 + i) then chA else chT)
        else 0.
Proof.
  apply (proj2 (Seq_of_source_symbols 5 1 eq_refl
                  (fun i => if Nat.even i then chA else chT) 1 3 [77; 88]
                  eq_refl ltac:(lia))).
  - vm_compute; exact I.
  - intros H. vm_compute in H. destruct H.
Defined.

Lemma cstr_short_buffer_witness :
  Seq_of_cstr 5 1 [chA; chC; chG; chT; chC] [0; 0] = OutOfBounds.
Proof.
  apply (cstr_short_buffer 5 1 eq_refl [chA; chC; chG; chT; chC] [0; 0]);
    [vm_compute; lia | vm_compute; repeat constructor].
Defined.

Lemma sliding_window_witness :
  symbols 5 1 (fold_left (op_shl 5 1) [2; 0; 3] (mkSeq [228; 1]))
  = drop 3 (symbols 5 1 (mkSeq [228; 1]) ++ [2; 0; 3]).
Proof.
  apply (sliding_window 5 1 eq_refl [2; 0; 3] (mkSeq [228; 1]));
    [vm_compute; exact I | vm_compute; exact I | lia | repeat constructor; lia].
Defined.

Lemma pushBack_appends_witness :
  valid (3 + 1) 1 (pushBack 3 1 (mkSeq [57]) 2) /\
  padded (3 + 1) 1 (pushBack 3 1 (mkSeq [57]) 2) /\
  (forall i, (i < 3)%nat ->
     op_index 1 (pushBack 3 1 (mkSeq [57]) 2) i = op_index 1 (mkSeq [57]) i) /\
  op_index 1 (pushBack 3 1 (mkSeq [57]) 2) 3 = 2.
Proof.
  apply (pushBack_appends 3 1 eq_refl (mkSeq [57]) 2);
    [vm_compute; exact I | vm_compute; exact I | lia].
Defined.

Lemma pushFront_prepends_witness :
  (exists r, pushFront 4 1 (mkSeq [228]) 2 [77; 88] = Done r /\
     valid (4 + 1) 1 r /\ padded (4 + 1) 1 r /\
     op_index 1 r 0 = 2 /\
     forall i, (i < 4)%nat -> op_index 1 r (S i) = op_index 1 (mkSeq [228]) i) /\
  pushFront 4 1 (mkSeq [228]) 9 [77; 88] = AssertionFailed.
Proof.
  split.
  - apply (proj1 (pushFront_prepends 4 1 eq_refl (mkSeq [228]) 2 [77; 88] eq_refl)).
    lia.
  - apply (proj2 (pushFront_prepends 4 1 eq_refl (mkSeq [228]) 9 [77; 88] eq_refl));
      reflexivity.
Defined.

Lemma end_is_suffix_witness :
  (exists r, end_ 5 1 3 8 (mkSeq [228; 1]) [77] = Done r /\
     valid 3 8 r /\ padded 3 8 r /\
     forall i, (i < 3)%nat ->
       op_index 8 r i = op_index 1 (mkSeq [228; 1]) (5 - 3 + i)) /\
  end_ 5 1 6 1 (mkSeq [228; 1]) [77; 88] = AssertionFailed.
Proof.
  split.
  - apply (proj1 (end_is_suffix 5 1 3 8 eq_refl (mkSeq [228; 1]) [77] eq_refl)).
    lia.
  - apply (proj2 (end_is_suffix 5 1 6 1 eq_refl (mkSeq [228; 1]) [77; 88] eq_refl)).
    lia.
Defined.

Lemma start_is_prefix_witness :
  (exists r, start 5 1 3 8 (mkSeq [228; 1]) [77] = Done r /\
     (forall i, (i < 3)%nat -> op_index 8 r i = op_index 1 (mkSeq [228; 1]) i) /\
     ((3 < 5)%nat -> valid 3 8 r /\ padded 3 8 r)) /\
  start 5 1 6 1 (mkSeq [228; 1]) [77; 88] = AssertionFailed.
Proof.
  split.
  - apply (proj1 (start_is_prefix 5 1 3 8 eq_refl (mkSeq [228; 1]) [77] eq_refl)).
    lia.
  - apply (proj2 (start_is_prefix 5 1 6 1 eq_refl (mkSeq [228; 1]) [77; 88] eq_refl)).
    lia.
Defined.

Lemma pushBack_then_end_witness :
  exists r, end_ (5 + 1) 1 5 1 (pushBack 5 1 (mkSeq [228; 1]) 2) [77; 88] = Done r /\
            op_eq 5 1 r (op_shl 5 1 (mkSeq [228; 1]) 2) = true.
Proof.
  apply (pushBack_then_end 5 1 eq_refl (mkSeq [228; 1]) 2 [77; 88]);
    [vm_compute; exact I | vm_compute; exact I | lia | lia | reflexivity].
Defined.

Lemma pushFront_then_start_witness :
  exists r1 r2 r3,
    pushFront 4 1 (mkSeq [228]) 2 [77; 88] = Done r1 /\
    start (4 + 1) 1 4 1 r1 [99] = Done r2 /\
    op_shr 4 1 (mkSeq [228]) 2 = Done r3 /\
    op_eq 4 1 r2 r3 = true.
Proof.
  apply (pushFront_then_start 4 1 eq_refl (mkSeq [228]) 2 [77; 88] [99]);
    [vm_compute; exact I | lia | reflexivity | reflexivity].
Defined.

Lemma VectorStream_delivers_witness :
  VectorStream.extract_n 2 (VectorStream.make [10; 20; 30])
  = Done ([10; 20], VectorStream.mk [10; 20; 30] 2 false) /\
  VectorStream.extract_n 4 (VectorStream.make [10; 20; 30]) = OutOfBounds.
Proof.
  split.
  - apply (proj1 (VectorStream_delivers [10; 20; 30] 2)). vm_compute; lia.
  - apply (proj2 (VectorStream_delivers [10; 20; 30] 4)). vm_compute; lia.
Defined.

Lemma VectorStream_reset_and_close_witness :
  exists s' : VectorStream.t,
    VectorStream.extract_n 2
      (VectorStream.reset (VectorStream.close (VectorStream.mk [10; 20; 30] 3 false)))
    = Done (take 2 [10; 20; 30], s') /\
    VectorStream.is_open s' = false /\ VectorStream.pos_ s' = 2%nat.
Proof.
  apply (VectorStream_reset_and_close (VectorStream.mk [10; 20; 30] 3 false) 2).
  vm_compute; lia.
Defined.
